(** * Parallel tableau simplex (parallelSimplex.cpp): a shallow embedding

    The tableau [double **tableau] is a [list (list Qc)]: [constraintNumb]
    constraint rows followed by the objective row, each row holding
    [colNumb + 1] entries, the last one being the right-hand side.  Entries
    are exact canonical rationals [Qc], so that the development reasons about
    the algorithm in exact arithmetic; [Qc] has Leibniz equality, which lets
    tableaux be compared with [=].

    The OpenMP reductions [maximo] and [minimo] are modelled by reduction
    trees: the iterations of the reduced loop are split into the lists run by
    the private copies ([RPart]), the shared original value takes part as
    [ROrig], and the partial results are combined by the declared combiner in
    the shape given by the tree.  Every tree whose parts are a permutation of
    the loop's index range is a possible execution, whatever the thread
    count, the chunk size and the [guided] schedule.

    The elimination loop of line 338 is [nowait], and each of its rows reads
    the shared [max.index] at line 341 while the threads that are done with
    their rows may already merge their copies of the reduction of line 349
    into [max].  A schedule says, for each row, how many of those merges the
    read sees ([sc_seen]); the merges into the shared variable are the
    right spine of the reduction tree ([stages]).  With one thread a row
    sees none of them. *)

From Stdlib Require Import QArith Qcanon ZArith Lqa Ascii.
From stdpp Require Import base list numbers sets.

#[global] Instance Qc_inhabited : Inhabited Qc := populate 0%Qc.

(** ** The tableau *)

Abbreviation tab := (list (list Qc)).

(** [tableau[i][j]] *)
Definition get (T : tab) (i j : nat) : Qc := (T !!! i) !!! j.

(** [tableau[i][j] = v] *)
Definition set (T : tab) (i j : nat) (v : Qc) : tab :=
  <[i := <[j := v]> (T !!! i)]> T.

(** ** [struct Compare_Max] / [struct Compare_Min] and their combiners *)

Record Compare_Max := MkMax { max_val : Qc; max_index : Z }.

(** [double val = 0; int index = -1;] *)
Definition Compare_Max_default : Compare_Max := MkMax 0 (-1).

(** A [double] of [Compare_Min]: a finite value or [HUGE_VAL]. *)
Inductive ext := Fin (q : Qc) | HUGE_VAL.

Definition ext_lt (a b : ext) : bool :=
  match a, b with
  | Fin x, Fin y => bool_decide (x < y)%Qc
  | Fin _, HUGE_VAL => true
  | HUGE_VAL, _ => false
  end.

Record Compare_Min := MkMin { min_val : ext; min_index : Z }.

(** [double val = HUGE_VAL; int index = -1;] *)
Definition Compare_Min_default : Compare_Min := MkMin HUGE_VAL (-1).

(** [omp_out = omp_in.val > omp_out.val ? omp_in : omp_out] *)
Definition maximo (omp_in omp_out : Compare_Max) : Compare_Max :=
  if bool_decide (max_val omp_out < max_val omp_in)%Qc then omp_in else omp_out.

(** [omp_out = omp_in.val < omp_out.val ? omp_in : omp_out] *)
Definition minimo (omp_in omp_out : Compare_Min) : Compare_Min :=
  if ext_lt (min_val omp_in) (min_val omp_out) then omp_in else omp_out.

(** ** Reduction trees *)

Inductive red_tree :=
| RPart (js : list nat)
| ROrig
| RNode (l r : red_tree).

(** The loop iterations run by the private copies of a tree. *)
Fixpoint parts (t : red_tree) : list nat :=
  match t with
  | RPart js => js
  | ROrig => []
  | RNode l r => parts l ++ parts r
  end.

(** A tree is a possible execution of a reduction over [for (j = 0; j < k; j++)]. *)
Definition valid_tree (k : nat) (t : red_tree) : Prop := parts t ≡ₚ seq 0 k.

Section Reduce.
  Context {A : Type} (orig : A) (leaf : list nat -> A) (comb : A -> A -> A).

  (** [RNode l r] combines with [omp_in] from [l] and [omp_out] from [r]. *)
Fixpoint reduce (t : red_tree) : A :=
    match t with
    | RPart js => leaf js
    | ROrig => orig
    | RNode l r => comb (reduce l) (reduce r)
    end.

  (** The values the shared variable takes, one merge after the other, when
      the private copies are merged into it one at a time: [RNode l r] merges
      the copy [l] into the value [r] leaves; a tree whose right spine does
      not end in [ROrig] has none. *)
Fixpoint stages (t : red_tree) : list A :=
    match t with
    | RPart _ => []
    | ROrig => [orig]
    | RNode l r => match stages r with [] => [] | st => st ++ [reduce t] end
    end.
End Reduce.

(** The number of merges into the shared variable along the right spine of a
    tree, when the spine ends in [ROrig]. *)
Fixpoint merges (t : red_tree) : option nat :=
  match t with
  | RPart _ => None
  | ROrig => Some 0
  | RNode _ r => option_map S (merges r)
  end.

(** ** One run of the engine (main, lines 281-368) *)

(** How one execution distributes the reduced loops over threads. *)
Record schedule := MkSchedule {
  sc_init : red_tree;            (* the initial scan, lines 294-299 *)
  sc_ratio : nat -> red_tree;    (* the ratio test of iteration k, lines 307-317 *)
  sc_scan : nat -> red_tree;     (* the objective update of iteration k, lines 349-359 *)
  sc_threads : nat;              (* numbThreads *)
  sc_seen : nat -> nat -> nat    (* iteration k, row i: the private copies of the reduction
                                    of line 349 merged into [max] when line 341 reads
                                    [max.index] for row i *)
}.

Record state := MkState {
  st_tab : tab;
  st_max : Compare_Max;
  st_min : Compare_Min;
  st_ni : nat
}.

Inductive outcome :=
| Optimal (T : tab) (ni : nat)   (* the loop exits with [conta == 0] *)
| Unbounded                      (* "Solucao nao encontrada", exit(1) *)
| OutOfBounds                    (* a tableau access outside the matrix *)
| OutOfFuel.                     (* the loop is still running *)

Inductive step_result := Next (s : state) | Halt (o : outcome).

(** Equality of states and results is decidable. *)
#[global] Instance ext_eq_dec : EqDecision ext.
Proof. solve_decision. Defined.
#[global] Instance Compare_Max_eq_dec : EqDecision Compare_Max.
Proof. solve_decision. Defined.
#[global] Instance Compare_Min_eq_dec : EqDecision Compare_Min.
Proof. solve_decision. Defined.
#[global] Instance state_eq_dec : EqDecision state.
Proof. solve_decision. Defined.
#[global] Instance outcome_eq_dec : EqDecision outcome.
Proof. solve_decision. Defined.
#[global] Instance step_result_eq_dec : EqDecision step_result.
Proof. solve_decision. Defined.

(** The process exit status and the printed objective value. *)
Definition exit_status (o : outcome) : option Z :=
  match o with Optimal _ _ => Some 0%Z | Unbounded => Some 1%Z | _ => None end.

Section Engine.
  (** [constraintNumb] is the index of the objective row and [colNumb] the
      index of the right-hand-side column (both decremented in main). *)
  Variables constraintNumb colNumb : nat.

Definition printed_value (o : outcome) : option Qc :=
    match o with Optimal T _ => Some (get T constraintNumb colNumb) | _ => None end.

Definition wf (T : tab) : Prop :=
    length T = S constraintNumb /\ forall i, i <= constraintNumb -> length (T !!! i) = S colNumb.

Definition col_in_range (z : Z) : bool := (0 <=? z)%Z && (z <=? Z.of_nat colNumb)%Z.
Definition row_in_range (z : Z) : bool := (0 <=? z)%Z && (z <? Z.of_nat constraintNumb)%Z.

  (** *** Entering variable, initial scan (lines 294-299) *)
Definition init_scan_body (T : tab) (max : Compare_Max) (j : nat) : Compare_Max :=
    if bool_decide (get T constraintNumb j < 0)%Qc
       && bool_decide (max_val max < - get T constraintNumb j)%Qc
    then MkMax (- get T constraintNumb j) (Z.of_nat j) else max.

Definition init_scan_leaf (T : tab) (js : list nat) : Compare_Max :=
    fold_left (init_scan_body T) js Compare_Max_default.

Definition initial_scan (t : red_tree) (T : tab) : Compare_Max :=
    reduce Compare_Max_default (init_scan_leaf T) maximo t.

  (** *** Leaving variable, ratio test (lines 307-317) *)
Definition ratio_body (T : tab) (pc : nat) (acc : nat * Compare_Min) (i : nat)
      : nat * Compare_Min :=
    let '(count, min) := acc in
    if bool_decide (0 < get T i pc)%Qc then
      let pivot := (get T i colNumb / get T i pc)%Qc in
      if ext_lt (Fin pivot) (min_val min) then (count, MkMin (Fin pivot) (Z.of_nat i))
      else (count, min)
    else (S count, min).

Definition ratio_leaf (T : tab) (pc : nat) (js : list nat) : nat * Compare_Min :=
    fold_left (ratio_body T pc) js (0, Compare_Min_default).

Definition ratio_comb (a b : nat * Compare_Min) : nat * Compare_Min :=
    (a.1 + b.1, minimo a.2 b.2).

  (** The body reads [tableau[i][max.index]]: when it runs at all
      ([constraintNumb > 0]) with [max.index] outside the row, the read is
      out of bounds.  [count] is 0 when the loop starts: it is 0 initially
      and the single after the loop resets it whenever the run goes on. *)
Definition ratio_test (t : red_tree) (T : tab) (pc : Z) (min : Compare_Min)
      : option (nat * Compare_Min) :=
    if (constraintNumb =? 0) || col_in_range pc
    then Some (reduce (0, min) (ratio_leaf T (Z.to_nat pc)) ratio_comb t)
    else None.

  (** *** Pivot (lines 329-351) *)

  (** lines 333-336 *)
Definition normalize (T : tab) (pr : nat) (pivot : Qc) : tab :=
    fold_left (fun T j => set T pr j (get T pr j / pivot)%Qc) (seq 0 (S colNumb)) T.

  (** lines 340-345, one row *)
Definition eliminate_row (T : tab) (pr pc i : nat) : tab :=
    let pivot2 := (- get T i pc)%Qc in
    fold_left (fun T j => set T i j (pivot2 * get T pr j + get T i j)%Qc)
      (seq 0 (S colNumb)) T.

  (** lines 338-347: row [i] reads [max.index] at line 341, which is [cols i] *)
Definition eliminate (T : tab) (pr : nat) (cols : nat -> nat) : tab :=
    fold_left (fun T i => if decide (i = pr) then T else eliminate_row T pr (cols i) i)
      (seq 0 constraintNumb) T.

  (** line 351, the write of the fused loop *)
Definition objective_update (T : tab) (pr : nat) (pivot3 : Qc) : tab :=
    fold_left (fun T j =>
        set T constraintNumb j (pivot3 * get T pr j + get T constraintNumb j)%Qc)
      (seq 0 (S colNumb)) T.

  (** [pivot] and [pivot3] are read before the barrier of line 332, that is
      before the pivot row is normalized, with [max.index] equal to [pc]; the
      elimination reads [max.index] again for each row, as [cols]. *)
Definition pivot_tab (T : tab) (pr pc : nat) (cols : nat -> nat) : tab :=
    let pivot := get T pr pc in
    let pivot3 := (- get T constraintNumb pc)%Qc in
    objective_update (eliminate (normalize T pr pivot) pr cols) pr pivot3.

  (** *** Next entering variable, fused into the objective update (lines 352-358)

      Iteration [j] of the loop of line 350 tests the entry [j] it has just
      written and nothing else, so the test reads the updated objective row:
      it is modelled as a reduction over the tableau after the update. *)
Definition scan_body (T : tab) (acc : nat * Compare_Max) (j : nat) : nat * Compare_Max :=
    let '(conta, max) := acc in
    if (j <? colNumb) && bool_decide (get T constraintNumb j < 0)%Qc then
      (S conta,
       if bool_decide (max_val max < - get T constraintNumb j)%Qc
       then MkMax (- get T constraintNumb j) (Z.of_nat j) else max)
    else (conta, max).

Definition scan_leaf (T : tab) (js : list nat) : nat * Compare_Max :=
    fold_left (scan_body T) js (0, Compare_Max_default).

Definition scan_comb (a b : nat * Compare_Max) : nat * Compare_Max :=
    (a.1 + b.1, maximo a.2 b.2).

  (** [conta] is 0 here: the single of line 319 resets it. *)
Definition fused_scan (t : red_tree) (T : tab) (max : Compare_Max) : nat * Compare_Max :=
    reduce (0, max) (scan_leaf T) scan_comb t.

  (** [max] after [k] merges of the private copies of the loop of line 349. *)
Definition shared_max (t : red_tree) (T : tab) (max : Compare_Max) (k : nat) : Compare_Max :=
    (nth k (stages (0, max) (scan_leaf T) scan_comb t) (0, max)).2.

  (** The loop of line 338 is nowait: a thread still eliminating row [i]
      reads at line 341 the shared [max], into which the threads already in
      the loop of line 349 may have merged their copies.  That loop writes
      the objective row only, and reads it and the pivot row, which the loop
      of line 338 does not write: its copies compute the same values on the
      normalized tableau with only the objective row updated. *)
Definition elim_cols (sc : schedule) (s : state) (pr pc : nat) : nat -> nat :=
    let T := st_tab s in
    let T2 := objective_update (normalize T pr (get T pr pc)) pr (- get T constraintNumb pc)%Qc in
    fun i => Z.to_nat (max_index (shared_max (sc_scan sc (st_ni s)) T2 (st_max s)
                                   (sc_seen sc (st_ni s) i))).

  (** *** One iteration of the do-while loop (lines 305-367) *)
Definition step (sc : schedule) (s : state) : step_result :=
    let T := st_tab s in
    match ratio_test (sc_ratio sc (st_ni s)) T (max_index (st_max s)) (st_min s) with
    | None => Halt OutOfBounds
    | Some (count, min) =>
        if count =? constraintNumb then
          (* single nowait: the other threads go on to line 329 and read
             tableau[min.index][max.index] while this one calls exit(1) *)
          if (1 <? sc_threads sc) && negb (row_in_range (min_index min))
          then Halt OutOfBounds else Halt Unbounded
        else
          let pr := Z.to_nat (min_index min) in
          let pc := Z.to_nat (max_index (st_max s)) in
          let T' := pivot_tab T pr pc (elim_cols sc s pr pc) in
          let '(conta, max) := fused_scan (sc_scan sc (st_ni s)) T' (st_max s) in
          (* lines 361-366 *)
          let s' := MkState T' (MkMax 0 (max_index max)) (MkMin HUGE_VAL (min_index min))
                      (S (st_ni s)) in
          if conta =? 0 then Halt (Optimal T' (S (st_ni s))) else Next s'
    end.

  (** Lines 294-303: the initial scan, then [max.val = 0]. *)
Definition init (sc : schedule) (T : tab) : state :=
    let max := initial_scan (sc_init sc) T in
    MkState T (MkMax 0 (max_index max)) Compare_Min_default 0.

Fixpoint loop (sc : schedule) (fuel : nat) (s : state) : outcome :=
    match fuel with
    | 0 => OutOfFuel
    | S f => match step sc s with Next s' => loop sc f s' | Halt o => o end
    end.

Definition run (sc : schedule) (fuel : nat) (T : tab) : outcome := loop sc fuel (init sc T).

Definition valid_schedule (sc : schedule) : Prop :=
    valid_tree (S colNumb) (sc_init sc) /\
    (forall k, valid_tree constraintNumb (sc_ratio sc k)) /\
    (forall k, valid_tree (S colNumb) (sc_scan sc k)) /\
    0 < sc_threads sc /\
    (* the copy of the thread that eliminates row i is merged after it *)
    (forall k i, sc_seen sc k i = 0 \/
       (1 < sc_threads sc /\ exists c, merges (sc_scan sc k) = Some c /\ sc_seen sc k i < c)).

  (** One thread: each reduction is one private copy that runs the whole
      range in order and is then combined into the shared variable. *)
Definition single_thread : schedule :=
    MkSchedule (RNode (RPart (seq 0 (S colNumb))) ROrig)
               (fun _ => RNode (RPart (seq 0 constraintNumb)) ROrig)
               (fun _ => RNode (RPart (seq 0 (S colNumb))) ROrig)
               1 (fun _ _ => 0).

  (** The states at the start of the iterations of a run. *)
Inductive reach (sc : schedule) (T0 : tab) : state -> Prop :=
  | reach_init : reach sc T0 (init sc T0)
  | reach_step s s' : reach sc T0 s -> step sc s = Next s' -> reach sc T0 s'.
End Engine.


Definition q (a b : Z) : Qc := Q2Qc (Qmake a (Z.to_pos b)).
Definition qz (a : Z) : Qc := Q2Qc (inject_Z a).

(** The example of the spec: maximize 3x1 + 5x2. *)
Definition example_tab : tab :=
  [[qz 1; qz 0; qz 1; qz 0; qz 0; qz 4];
   [qz 0; qz 2; qz 0; qz 1; qz 0; qz 12];
   [qz 3; qz 2; qz 0; qz 0; qz 1; qz 18];
   [qz (-3); qz (-5); qz 0; qz 0; qz 0; qz 0]].

(** A loop that writes entry [(i, j)] of one row for each [j] of [js]. *)
Definition row_loop (i : nat) (F : tab -> nat -> Qc) (js : list nat) (T : tab) : tab :=
  fold_left (fun T j => set T i j (F T j)) js T.


(** ** What the reductions compute *)

(** Over the candidates [j] of [js] (those with [ok j]), [mx] holds the
    largest weight [w j] with its index when some weight is positive;
    otherwise its value is 0 (its index is whatever it was). *)
Definition max_spec (ok : nat -> bool) (w : nat -> Qc) (js : list nat) (mx : Compare_Max) : Prop :=
  (max_val mx = 0%Qc /\ forall j, j ∈ js -> ok j = true -> (w j <= 0)%Qc) \/
  (exists j, j ∈ js /\ ok j = true /\ (0 < w j)%Qc /\ mx = MkMax (w j) (Z.of_nat j) /\
     forall k, k ∈ js -> ok k = true -> (w k <= w j)%Qc).

(** Over the eligible rows [i] of [is], [mn] holds the smallest ratio [rt i]
    with its row; with no eligible row its value is [HUGE_VAL]. *)
Definition min_spec (elig : nat -> Prop) (rt : nat -> Qc) (is : list nat) (mn : Compare_Min)
    : Prop :=
  (min_val mn = HUGE_VAL /\ forall i, i ∈ is -> ~ elig i) \/
  (exists i, i ∈ is /\ elig i /\ mn = MkMin (Fin (rt i)) (Z.of_nat i) /\
     forall k, k ∈ is -> elig k -> (rt i <= rt k)%Qc).

(** ** Properties of the states of a run *)

(** The objective row has a negative entry in column [pc], and [pr] is a row
    the ratio test may pick: a positive entry in column [pc] and the least
    ratio [rhs / entry] among such rows. *)
Definition min_ratio_row (m n : nat) (T : tab) (pc pr : nat) : Prop :=
  pr < m /\ (0 < get T pr pc)%Qc /\
  forall k, k < m -> (0 < get T k pc)%Qc ->
    (get T pr n / get T pr pc <= get T k n / get T k pc)%Qc.

(** What holds at the start of every iteration: the shape of the tableau,
    the values reset by the singles of lines 302-303 and 361-366, and an
    entering column that is the sentinel or a negative entry of the
    objective row. *)
Definition inv (m n : nat) (s : state) : Prop :=
  wf m n (st_tab s) /\ max_val (st_max s) = 0%Qc /\ min_val (st_min s) = HUGE_VAL /\
  (max_index (st_max s) = (-1)%Z \/
   exists j, j <= n /\ max_index (st_max s) = Z.of_nat j /\ (get (st_tab s) m j < 0)%Qc).

(** A value [max] can hold during the loop of line 349 of an iteration with
    entering column [pc]: the entering column with the value 0, or a column
    [j < colNumb] with a positive value. *)
Definition max_stage_ok (n pc : nat) (mx : Compare_Max) : Prop :=
  (max_val mx = 0%Qc /\ max_index mx = Z.of_nat pc) \/
  (exists j, j < n /\ (0 < max_val mx)%Qc /\ max_index mx = Z.of_nat j).

(** The right-hand sides of the constraint rows are non-negative. *)
Definition feasible (m n : nat) (T : tab) : Prop := forall i, i < m -> (0 <= get T i n)%Qc.

(** [k] iterations of the loop body. *)
Fixpoint steps (m n : nat) (sc : schedule) (k : nat) (s : state) : step_result :=
  match k with
  | 0 => Next s
  | S k' => match step m n sc s with Next s' => steps m n sc k' s' | Halt o => Halt o end
  end.

(** The iteration counter shifted by [k]. *)
Definition bump_outcome (k : nat) (o : outcome) : outcome :=
  match o with Optimal T ni => Optimal T (ni + k) | o => o end.

Definition bump (k : nat) (r : step_result) : step_result :=
  match r with
  | Next s => Next (MkState (st_tab s) (st_max s) (st_min s) (st_ni s + k))
  | Halt o => Halt (bump_outcome k o)
  end.

(** A two-thread execution: the private copies run halves of the ranges, and
    every row of the elimination is read before any copy of the loop of line
    349 is merged. *)
Definition two_threads (m n : nat) : schedule :=
  let half k := Nat.div2 k in
  MkSchedule (RNode (RPart (seq 0 (half (S n)))) (RNode (RPart (seq (half (S n)) (S n - half (S n)))) ROrig))
             (fun _ => RNode (RPart (seq 0 (half m))) (RNode (RPart (seq (half m) (m - half m))) ROrig))
             (fun _ => RNode (RPart (seq 0 (half (S n)))) (RNode (RPart (seq (half (S n)) (S n - half (S n)))) ROrig))
             2 (fun _ _ => 0).

(** Two threads on the spec's example.  The elimination loop of line 338 has
    the static schedule: thread 0 eliminates rows 0 and 1, thread 1 row 2.
    In the first iteration thread 1, done with row 2, runs the whole loop of
    line 349 and merges its copy into [max] before thread 0 reads
    [max.index] for row 0; in the second, thread 0, done with its rows, does
    the same before thread 1 reads [max.index] for row 2.  The other
    reductions are split as in [two_threads]. *)
Definition example_race : schedule :=
  MkSchedule (sc_init (two_threads 3 5)) (sc_ratio (two_threads 3 5))
    (fun k => if k <=? 1 then RNode (RPart []) (RNode (RPart (seq 0 6)) ROrig)
              else sc_scan (two_threads 3 5) k)
    2 (fun k i => if (k =? 0) && (i =? 0) || (k =? 1) && (i =? 2) then 1 else 0).

(** One constraint [-x1 <= 5] with objective [max x1]: column 0 has no
    positive constraint entry. *)
Definition unb_tab : tab :=
  [[qz (-1); qz 0; qz 5];
   [qz (-1); qz 0; qz 0]].

(** One constraint [x1 <= 4] and an objective row whose right-hand side,
    the column the scans must skip, is its most negative entry. *)
Definition rhs_tab : tab :=
  [[qz 1; qz 0; qz 4];
   [qz (-1); qz 0; qz (-5)]].

(** Beale's degenerate problem in tableau form: three constraints, four
    structural and three slack variables. *)
Definition beale : tab :=
  [[q 1 4; qz (-8); qz (-1); qz 9; qz 1; qz 0; qz 0; qz 0];
   [q 1 2; qz (-12); q (-1) 2; qz 3; qz 0; qz 1; qz 0; qz 0];
   [qz 0; qz 0; qz 1; qz 0; qz 0; qz 0; qz 1; qz 1];
   [q (-3) 4; qz 20; q (-1) 2; qz 6; qz 0; qz 0; qz 0; qz 0]].

(** Invariants of the ratio test and of the fused scan. *)
Definition ratio_inv (m n : nat) (T : tab) (pc : nat) (l : list nat) (acc : nat * Compare_Min)
    : Prop :=
  acc.1 = length (filter (fun i => ~ (0 < get T i pc)%Qc) l) /\
  min_spec (fun i => 0 < get T i pc)%Qc (fun i => get T i n / get T i pc)%Qc l acc.2.

Definition scan_inv (m n : nat) (T : tab) (l : list nat) (acc : nat * Compare_Max) : Prop :=
  acc.1 = length (filter (fun j => j < n /\ (get T m j < 0)%Qc) l) /\
  max_spec (fun j => j <? n) (fun j => - get T m j)%Qc l acc.2.

(** The tableau the one-thread run on [example_tab] ends with. *)
Definition example_final : tab :=
  match run 3 5 (single_thread 3 5) 2 example_tab with Optimal T _ => T | _ => [] end.

(** The state Beale's tableau returns to every six iterations. *)
Definition beale_S : state := MkState beale (MkMax 0 0) (MkMin HUGE_VAL 1) 0.

(** * The rest of the program: input, allocation and timing *)

(** C strings and file contents are lists of characters (without the
    terminating NUL); pointers are addresses, [0] being the null pointer. *)

(** ** Characters of the C locale *)

(** [isspace]: blank, [\t], [\n], [\v], [\f], [\r]. *)
Definition isspace (c : ascii) : bool :=
  let k := nat_of_ascii c in (k =? 32) || ((9 <=? k) && (k <=? 13)).

(** [isdigit] *)
Definition isdigit (c : ascii) : bool :=
  let k := nat_of_ascii c in (48 <=? k) && (k <=? 57).

Definition digit_value (c : ascii) : Z := (Z.of_nat (nat_of_ascii c) - 48)%Z.

(** The longest prefix of characters satisfying [p], and the rest. *)
Fixpoint span (p : ascii -> bool) (s : list ascii) : list ascii * list ascii :=
  match s with
  | [] => ([], [])
  | c :: s' => if p c then let '(a, b) := span p s' in (c :: a, b) else ([], s)
  end.

Definition skip_while (p : ascii -> bool) (s : list ascii) : list ascii := (span p s).2.

(** The value of a run of decimal digits. *)
Definition digits_value (ds : list ascii) : Z :=
  fold_left (fun acc c => acc * 10 + digit_value c)%Z ds 0%Z.

(** An optional sign, [true] for a minus. *)
Definition read_sign (s : list ascii) : bool * list ascii :=
  match s with
  | c :: s' =>
      if Ascii.eqb c "-"%char then (true, s')
      else if Ascii.eqb c "+"%char then (false, s') else (false, s)
  | [] => (false, [])
  end.

(** The limits of a 32-bit [int] and a 64-bit [long]. *)
Definition INT_MIN : Z := (-2147483648)%Z.
Definition INT_MAX : Z := 2147483647%Z.
Definition LONG_MIN : Z := (-9223372036854775808)%Z.
Definition LONG_MAX : Z := 9223372036854775807%Z.

(** ** [atoi] and [strtok], as used by [get_dimension] (lines 187-204) *)

(** [strtol(s, NULL, 10)]: blanks, a sign, decimal digits; a value out of
    range gives [LONG_MIN] or [LONG_MAX], no digit gives 0. *)
Definition strtol10 (s : list ascii) : Z :=
  let '(neg, s') := read_sign (skip_while isspace s) in
  let v := digits_value (span isdigit s').1 in
  Z.max LONG_MIN (Z.min LONG_MAX (if neg then - v else v)).

(** The conversion of a [long] to [int] keeps the low 32 bits. *)
Definition wrap32 (z : Z) : Z := (Z.modulo (z + 2147483648) 4294967296 - 2147483648)%Z.

(** [atoi(s)] is [(int) strtol(s, NULL, 10)]. *)
Definition atoi (s : list ascii) : Z := wrap32 (strtol10 s).

(** The delimiters ["x/_"]. *)
Definition is_delim (c : ascii) : bool :=
  Ascii.eqb c "x"%char || Ascii.eqb c "/"%char || Ascii.eqb c "_"%char.

(** One call of [strtok] with the delimiters ["x/_"], from the position
    where the previous call stopped: the delimiters are skipped; if nothing
    is left it returns [NULL]; otherwise the token runs up to the next
    delimiter, which is overwritten by a NUL, and the next call starts after
    it. *)
Definition strtok_next (s : list ascii) : option (list ascii * list ascii) :=
  match skip_while is_delim s with
  | [] => None
  | s1 => let '(tok, rest) := span (fun c => negb (is_delim c)) s1 in Some (tok, drop 1 rest)
  end.

(** The while loop of lines 191-201 ([pch] is [NULL] or a token and where
    the next call starts).  Each token takes a character of the name, so
    the length of the name plus one rounds are enough. *)
Fixpoint dimension_loop (fuel : nat) (i : Z) (dimension : Z * Z)
    (pch : option (list ascii * list ascii)) : Z * Z :=
  match fuel, pch with
  | S f, Some (tok, rest) =>
      let dimension := if (i =? 1)%Z then (atoi tok, dimension.2) else dimension in
      let dimension := if (i =? 2)%Z then (dimension.1, atoi tok) else dimension in
      dimension_loop f (i + 1)%Z dimension (strtok_next rest)
  | _, _ => dimension
  end.

(** [get_dimension(argv, nL, nC)]: the pair [(nL, nC)]. *)
Definition get_dimension (argv1 : list ascii) : Z * Z :=
  let dimension := dimension_loop (S (length argv1)) 0%Z (0%Z, 0%Z) (strtok_next argv1) in
  (dimension.1 + 1, dimension.1 + dimension.2 + 1)%Z.

(** ** [from_string] (lines 155-159) *)

(** [num_get] of libstdc++ for an [int] in base 10, once the sentry has
    skipped the blanks: a sign and decimal digits, read as a [long] and then
    narrowed.  No digit stores 0 and fails; a value outside [int] stores
    [INT_MIN] or [INT_MAX] and fails.  The result is [(ok, value stored)]. *)
Definition num_get_int (s : list ascii) : bool * Z :=
  let '(neg, s') := read_sign s in
  match (span isdigit s').1 with
  | [] => (false, 0%Z)
  | ds =>
      let v := if neg then (- digits_value ds)%Z else digits_value ds in
      if (v <? INT_MIN)%Z then (false, INT_MIN)
      else if (INT_MAX <? v)%Z then (false, INT_MAX) else (true, v)
  end.

(** [from_string<int>(t, s, std::dec)]: what it returns and the new value of
    [t].  When only blanks are left the sentry fails and [t] is not
    written. *)
Definition from_string_int (t : Z) (s : list ascii) : bool * Z :=
  match skip_while isspace s with
  | [] => (false, t)
  | s1 => num_get_int s1
  end.

(** ** [string_to_vector] and the reading loop of [read_data] *)

Section Reading.
  (** [num_get] of the element type [T], once the blanks are skipped:
      [Some] the value read, [None] when the extraction fails. *)
  Context {T : Type} (num_get : list ascii -> option T).

  (** [from_string<T>(numb, sub, dec)], [Some numb] when it returns true. *)
Definition from_string (s : list ascii) : option T :=
    match skip_while isspace s with [] => None | s1 => num_get s1 end.

  (** [iss >> sub]: the next word and the rest of the stream; [None] when
      only blanks are left and the stream fails. *)
Definition read_word (s : list ascii) : option (list ascii * list ascii) :=
    match skip_while isspace s with
    | [] => None
    | s1 => Some (span (fun c => negb (isspace c)) s1)
    end.

  (** The do-while loop of lines 170-177.  When [iss >> sub] fails, [sub]
      is empty, [from_string] fails on it, nothing is pushed and the loop
      ends. *)
Fixpoint string_to_vector_loop (fuel : nat) (s : list ascii) (vec : list T) : list T :=
    match fuel with
    | 0 => vec
    | S f =>
        match read_word s with
        | None => vec
        | Some (sub, rest) =>
            let vec := match from_string sub with Some numb => vec ++ [numb] | None => vec end in
            string_to_vector_loop f rest vec
        end
    end.

  (** [string_to_vector<T>(s)]; each round takes a character. *)
Definition string_to_vector (s : list ascii) : list T :=
    string_to_vector_loop (S (length s)) s [].

  (** [getline(file, line)]: the characters up to the next newline, which
      is consumed; [None] at the end of the file when nothing is read. *)
Fixpoint getline (s : list ascii) : option (list ascii * list ascii) :=
    match s with
    | [] => None
    | c :: s' =>
        if Ascii.eqb c "010"%char then Some ([], s')
        else match getline s' with
             | Some (l, r) => Some (c :: l, r)
             | None => Some ([c], [])
             end
    end.

  (** [copy(contraint.begin(), contraint.end(), tableau[lin])] on a row whose
      unwritten entries are [None] (indeterminate). *)
Definition copy_row (v : list T) (row : list (option T)) : list (option T) :=
    map Some v ++ drop (length v) row.

  (** The loop of lines 233-241 on the matrix [M] of [nL] rows of [nC]
      entries (the writes to [log_file] and [sizes_col] are left out).  It
      gives [None] when it accesses the matrix out of bounds: [tableau[lin]]
      with [lin >= nL], or a line of more than [nC] numbers; otherwise the
      matrix and [lin]. *)
Fixpoint read_loop (nL nC : nat) (fuel : nat) (file : list ascii) (lin : nat)
      (M : list (list (option T))) : option (list (list (option T)) * nat) :=
    match fuel with
    | 0 => Some (M, lin)
    | S f =>
        match getline file with
        | None => Some (M, lin)
        | Some (line, rest) =>
            match line with
            | [] => Some (M, lin)
            | _ =>
                let contraint := string_to_vector line in
                if (nL <=? lin) || (nC <? length contraint) then None
                else read_loop nL nC f rest (S lin)
                       (<[lin := copy_row contraint (M !!! lin)]> M)
            end
        end
    end.

  (** The rows of [read_data] from the file contents, on the matrix that
      [alocate_matrix(nL, nC)] returns; each line takes a character. *)
Definition read_lines (nL nC : nat) (file : list ascii) : option (list (list (option T)) * nat) :=
    read_loop nL nC (S (length file)) file 0 (replicate nL (replicate nC None)).
End Reading.

(** A file made of the given lines, each ended by a newline. *)
Definition lines_text (ls : list (list ascii)) : list ascii :=
  concat (map (fun l => l ++ ["010"%char]) ls).

(** A row of [nC] entries after [copy]: the numbers read, then the entries
    left unwritten ([None], indeterminate). *)
Definition row {T} (nC : nat) (v : list T) : list (option T) :=
  map Some v ++ replicate (nC - length v) None.

(** [iss >> t] for an [int] [t], on a stream whose blanks are skipped:
    [None] when it fails. *)
Definition int_num_get (s : list ascii) : option Z :=
  let '(ok, v) := num_get_int s in if ok then Some v else None.

(** ** [alocate_matrix] and [delete_matrix] (lines 93-127) *)

(** The loop of lines 102-108: [rows] are the addresses the [nL] calls
    [new (nothrow) double[nC]] return ([0] when one fails); a pointer takes
    8 bytes.  [None] is [exit(EXIT_FAILURE)]. *)
Fixpoint alocate_rows (tableau : Z) (i : nat) (rows : list Z) : option (list Z) :=
  match rows with
  | [] => Some []
  | r :: rs =>
      (* *(tableau + i) = r; if ((tableau + i) == 0) exit(EXIT_FAILURE); *)
      if (tableau + 8 * Z.of_nat i =? 0)%Z then None
      else option_map (cons r) (alocate_rows tableau (S i) rs)
  end.

(** [alocate_matrix(nL, nC)] where [tableau] is the address
    [new (nothrow) double *[nL]] returns: the array and its rows. *)
Definition alocate_matrix (tableau : Z) (rows : list Z) : option (Z * list Z) :=
  if (tableau =? 0)%Z then None else option_map (pair tableau) (alocate_rows tableau 0 rows).

(** The addresses [delete_matrix(tableau, nL)] frees, in order. *)
Definition delete_matrix (tableau : Z) (rows : list Z) (nL : Z) : list Z :=
  if (tableau =? 0)%Z then []
  else map (fun i => rows !!! i) (seq 0 (Z.to_nat nL)) ++ [tableau].

(** Line 383: [main] frees the matrix of [nL] rows with [constraintNumb],
    which line 265 has set to [nL - 1]. *)
Definition main_delete (tableau : Z) (rows : list Z) (nL : Z) : list Z :=
  delete_matrix tableau rows (nL - 1).

(** ** Timing (lines 135-146) *)

Record timespec := MkTimespec { tv_sec : Z; tv_nsec : Z }.

(** The result of an arithmetic operation on [long] ([time_t] is a [long]
    too): [None] when it overflows, which is undefined behaviour. *)
Definition long_result (z : Z) : option Z :=
  if (LONG_MIN <=? z)%Z && (z <=? LONG_MAX)%Z then Some z else None.

(** [My_diff(start, end)], every subtraction and addition on 64-bit [long]s. *)
Definition My_diff (start end_ : timespec) : option timespec :=
  match long_result (tv_nsec end_ - tv_nsec start) with
  | None => None
  | Some d =>
      if (d <? 0)%Z then
        match long_result (tv_sec end_ - tv_sec start) with
        | None => None
        | Some s =>
            match long_result (s - 1), long_result (1000000000 + tv_nsec end_) with
            | Some s', Some e => option_map (MkTimespec s') (long_result (e - tv_nsec start))
            | _, _ => None
            end
        end
      else
        match long_result (tv_sec end_ - tv_sec start) with
        | None => None
        | Some s => Some (MkTimespec s d)
        end
  end.

(** Nanoseconds since the epoch of the clock, as an exact integer. *)
Definition total_ns (t : timespec) : Z := (tv_sec t * 1000000000 + tv_nsec t)%Z.

(** * Proofs *)


(** A closed decidable proposition, settled by evaluation. *)
Ltac decide_concrete :=
  match goal with |- ?P => apply (bool_decide_eq_true_1 P); vm_compute; reflexivity end.

(** A closed statement [forall x, x ∈ l -> P x] over a concrete list. *)
Ltac forall_concrete :=
  match goal with
  | |- forall x, x ∈ ?l -> @?P x => apply (proj1 (Forall_forall P l)); decide_concrete
  end.

(** The shape of a concrete tableau. *)
Ltac wf_concrete :=
  split; [reflexivity|]; intros i Hi; repeat (destruct i as [|i]; [reflexivity|]); lia.

Section ReduceInv.
  Context {A : Type} (orig : A) (leaf : list nat -> A) (comb : A -> A -> A).
  (** The correctness of a reduction follows from an invariant that relates
      a partial result to the iterations it has seen. *)
  Variable Inv : list nat -> A -> Prop.
  Hypothesis Inv_orig : Inv [] orig.
  Hypothesis Inv_leaf : forall js, Inv js (leaf js).
  Hypothesis Inv_comb : forall l1 l2 a b, Inv l1 a -> Inv l2 b -> Inv (l1 ++ l2) (comb a b).
  Hypothesis Inv_perm : forall l1 l2 a, l1 ≡ₚ l2 -> Inv l1 a -> Inv l2 a.

Lemma reduce_inv t : Inv (parts t) (reduce orig leaf comb t).
  Proof. induction t; simpl; auto. Qed.

Lemma reduce_valid k t : valid_tree k t -> Inv (seq 0 k) (reduce orig leaf comb t).
  Proof. intros H. eapply Inv_perm; [exact H|]. apply reduce_inv. Qed.
End ReduceInv.

(** ** Reads and writes of the tableau *)

Lemma lookup_total_insert_list {A} `{!Inhabited A} (l : list A) i j x :
  <[i := x]> l !!! j = if decide (i = j /\ i < length l) then x else l !!! j.
Proof.
  rewrite !list_lookup_total_alt, list_lookup_insert.
  case_decide; reflexivity.
Qed.

Lemma get_set (T : tab) i j v r c :
  get (set T i j v) r c =
  if decide (r = i /\ c = j /\ i < length T /\ j < length (T !!! i)) then v else get T r c.
Proof.
  unfold get, set. rewrite lookup_total_insert_list.
  destruct (decide (i = r /\ i < length T)) as [[-> Hl]|Hn].
  - rewrite lookup_total_insert_list.
    repeat case_decide; naive_solver.
  - case_decide; naive_solver.
Qed.

Lemma length_set (T : tab) i j v : length (set T i j v) = length T.
Proof. apply length_insert. Qed.

Lemma length_row_set (T : tab) i j v r : length (set T i j v !!! r) = length (T !!! r).
Proof.
  unfold set. rewrite lookup_total_insert_list.
  case_decide as H; [destruct H as [-> _]; apply length_insert | reflexivity].
Qed.

(** [row_loop], the value written at [j] depending on column [j] only. *)
Section RowLoop.
  Variable i : nat.
  Variable F : tab -> nat -> Qc.
  Hypothesis F_local : forall T T' c, (forall r, get T r c = get T' r c) -> F T c = F T' c.

Lemma row_loop_length js T : length (row_loop i F js T) = length T.
  Proof.
    revert T; induction js as [|j js IH]; intros T; simpl; [done|].
    rewrite IH. apply length_set.
  Qed.

Lemma row_loop_row_length js T r : length (row_loop i F js T !!! r) = length (T !!! r).
  Proof.
    revert T; induction js as [|j js IH]; intros T; simpl; [done|].
    rewrite IH. apply length_row_set.
  Qed.

Lemma row_loop_get js T r c :
    NoDup js -> i < length T -> (forall c, c ∈ js -> c < length (T !!! i)) ->
    get (row_loop i F js T) r c = if decide (r = i /\ c ∈ js) then F T c else get T r c.
  Proof.
    revert T; induction js as [|j js IH]; intros T Hnd Hi Hc; simpl.
    - case_decide as H; [destruct H as [_ H]; set_solver | done].
    - apply NoDup_cons in Hnd as [Hj Hnd].
      assert (Hjl : j < length (T !!! i)) by (apply Hc; set_solver).
      unfold row_loop in IH |- *. simpl. rewrite IH; [| done | by rewrite length_set
             | intros c' Hc'; rewrite length_row_set; apply Hc; set_solver].
      rewrite get_set.
      destruct (decide (r = i /\ c ∈ js)) as [[-> Hin]|Hn].
      + rewrite decide_True by set_solver.
        apply F_local. intros r'. rewrite get_set.
        rewrite decide_False; [done|]. intros (_ & -> & _). done.
      + destruct (decide (r = i /\ c = j /\ i < length T /\ j < length (T !!! i)))
          as [(-> & -> & _)|Hn2].
        * rewrite decide_True by set_solver. done.
        * destruct (decide (r = i /\ c ∈ j :: js)) as [[-> Hin]|]; [|done].
          apply elem_of_cons in Hin as [->|Hin]; [naive_solver | naive_solver].
  Qed.
End RowLoop.


Lemma row_loop_wf m n i F js T :
  wf m n T -> wf m n (row_loop i F js T).
Proof.
  intros [Hl Hr]. split.
  - by rewrite row_loop_length.
  - intros r Hrm. rewrite row_loop_row_length. auto.
Qed.

Lemma elem_of_seq_0 c k : c ∈ seq 0 k <-> c < k.
Proof. rewrite elem_of_seq. lia. Qed.

Section Pivot.
  Variables m n : nat.

Lemma row_loop_seq_get i F T r c :
    (forall T T' c, (forall r, get T r c = get T' r c) -> F T c = F T' c) ->
    wf m n T -> i <= m ->
    get (row_loop i F (seq 0 (S n)) T) r c =
    if decide (r = i /\ c <= n) then F T c else get T r c.
  Proof.
    intros Hloc [Hl Hr] Hi. rewrite row_loop_get; auto.
    - assert (Hiff : (r = i /\ c ∈ seq 0 (S n)) <-> (r = i /\ c <= n))
        by (rewrite elem_of_seq_0; lia).
      destruct (decide (r = i /\ c ∈ seq 0 (S n))), (decide (r = i /\ c <= n)); naive_solver.
    - apply NoDup_seq.
    - lia.
    - intros c' Hc'. apply elem_of_seq_0 in Hc'. rewrite Hr; lia.
  Qed.

Lemma normalize_wf T pr p : wf m n T -> wf m n (normalize n T pr p).
  Proof. apply row_loop_wf. Qed.

Lemma normalize_get T pr p r c :
    wf m n T -> pr <= m ->
    get (normalize n T pr p) r c =
    if decide (r = pr /\ c <= n) then (get T pr c / p)%Qc else get T r c.
  Proof.
    intros Hwf Hpr. apply (row_loop_seq_get pr (fun T j => get T pr j / p)%Qc); auto.
    intros T1 T2 c' Hc. by rewrite Hc.
  Qed.

Lemma eliminate_row_wf T pr pc i : wf m n T -> wf m n (eliminate_row n T pr pc i).
  Proof. apply row_loop_wf. Qed.

Lemma eliminate_row_get T pr pc i r c :
    wf m n T -> i <= m ->
    get (eliminate_row n T pr pc i) r c =
    if decide (r = i /\ c <= n) then (- get T i pc * get T pr c + get T i c)%Qc
    else get T r c.
  Proof.
    intros Hwf Hi. unfold eliminate_row.
    apply (row_loop_seq_get i (fun T' j => - get T i pc * get T' pr j + get T' i j)%Qc); auto.
    intros T1 T2 c' Hc. by rewrite !Hc.
  Qed.

Lemma eliminate_fold T pr cols is :
    wf m n T -> NoDup is -> (forall i, i ∈ is -> i < m) ->
    wf m n (fold_left (fun T i => if decide (i = pr) then T else eliminate_row n T pr (cols i) i) is T) /\
    forall r c,
    get (fold_left (fun T i => if decide (i = pr) then T else eliminate_row n T pr (cols i) i) is T) r c =
    if decide (r ∈ is /\ r <> pr /\ c <= n)
    then (- get T r (cols r) * get T pr c + get T r c)%Qc else get T r c.
  Proof.
    revert T. induction is as [|i is IH]; intros T Hwf Hnd His; cbn [fold_left].
    - split; [done|]. intros r c. rewrite decide_False; [done|].
      intros (H & _). by apply elem_of_nil in H.
    - apply NoDup_cons in Hnd as [Hi Hnd].
      assert (Him : i < m) by (apply His; left).
      assert (His' : forall i', i' ∈ is -> i' < m) by (intros; apply His; by right).
      destruct (decide (i = pr)) as [->|Hne].
      + destruct (IH T Hwf Hnd His') as [Hw HG].
        split; [done|]. intros r c. rewrite HG.
        destruct (decide (r ∈ is /\ r <> pr /\ c <= n)) as [(H1 & H2 & H3)|Hn].
        * rewrite decide_True; [done|]. split; [by right|done].
        * rewrite decide_False; [done|]. intros (H1 & H2 & H3).
          apply elem_of_cons in H1 as [->|H1]; [done|]. apply Hn; done.
      + destruct (IH (eliminate_row n T pr (cols i) i) (eliminate_row_wf _ _ _ _ Hwf) Hnd His')
          as [Hw HG].
        split; [done|]. intros r c. rewrite HG.
        rewrite !eliminate_row_get by (auto; lia).
        destruct (decide (r ∈ is /\ r <> pr /\ c <= n)) as [(Hr & Hrp & Hc)|Hn].
        * assert (r <> i) by (intros ->; done).
          rewrite (decide_False (P := r = i /\ c <= n)) by (intros [? ?]; done).
          rewrite (decide_False (P := r = i /\ cols r <= n)) by (intros [? ?]; done).
          rewrite (decide_False (P := pr = i /\ c <= n)) by (intros [? ?]; done).
          rewrite decide_True; [done|]. split; [by right|done].
        * destruct (decide (r = i /\ c <= n)) as [[-> Hc]|Hn2].
          -- rewrite decide_True; [done|]. split; [by left|done].
          -- rewrite decide_False; [done|].
             intros (Hin & Hrp & Hc). apply elem_of_cons in Hin as [->|Hin].
             ++ apply Hn2; done.
             ++ apply Hn; done.
  Qed.

Lemma eliminate_wf T pr cols : wf m n T -> wf m n (eliminate m n T pr cols).
  Proof.
    intros Hwf. apply (eliminate_fold T pr cols (seq 0 m) Hwf (NoDup_seq 0 m)).
    intros i Hi. by apply elem_of_seq_0.
  Qed.

Lemma eliminate_get T pr cols r c :
    wf m n T ->
    get (eliminate m n T pr cols) r c =
    if decide (r < m /\ r <> pr /\ c <= n)
    then (- get T r (cols r) * get T pr c + get T r c)%Qc else get T r c.
  Proof.
    intros Hwf. unfold eliminate.
    assert (Hs : forall i, i ∈ seq 0 m -> i < m) by (intros i Hi; by apply elem_of_seq_0).
    rewrite (proj2 (eliminate_fold T pr cols (seq 0 m) Hwf (NoDup_seq 0 m) Hs)).
    assert (Hiff : (r ∈ seq 0 m /\ r <> pr /\ c <= n) <-> (r < m /\ r <> pr /\ c <= n))
      by (rewrite elem_of_seq_0; done).
    destruct (decide (r ∈ seq 0 m /\ r <> pr /\ c <= n)),
             (decide (r < m /\ r <> pr /\ c <= n)); naive_solver.
  Qed.

Lemma objective_update_wf T pr p : wf m n T -> wf m n (objective_update m n T pr p).
  Proof. apply row_loop_wf. Qed.

Lemma objective_update_get T pr p r c :
    wf m n T -> pr <> m ->
    get (objective_update m n T pr p) r c =
    if decide (r = m /\ c <= n) then (p * get T pr c + get T m c)%Qc else get T r c.
  Proof.
    intros Hwf Hpr. unfold objective_update.
    apply (row_loop_seq_get m (fun T j => p * get T pr j + get T m j)%Qc); auto.
    intros T1 T2 c' Hc. by rewrite !Hc.
  Qed.

Lemma pivot_tab_wf T pr pc cols : wf m n T -> wf m n (pivot_tab m n T pr pc cols).
  Proof.
    intros Hwf. unfold pivot_tab.
    apply objective_update_wf, eliminate_wf, normalize_wf, Hwf.
  Qed.

  (** Entry [(r, c)] of the tableau after one pivot. *)
Lemma pivot_tab_get T pr pc cols r c :
    wf m n T -> pr < m ->
    get (pivot_tab m n T pr pc cols) r c =
    if decide (c <= n) then
      if decide (r = pr) then (get T pr c / get T pr pc)%Qc
      else if decide (r < m)
      then (get T r c + - get T r (cols r) * (get T pr c / get T pr pc))%Qc
      else if decide (r = m)
      then (get T m c + - get T m pc * (get T pr c / get T pr pc))%Qc
      else get T r c
    else get T r c.
  Proof.
    intros Hwf Hpr. unfold pivot_tab.
    rewrite objective_update_get by (auto using eliminate_wf, normalize_wf; lia).
    rewrite !eliminate_get by (auto using normalize_wf).
    rewrite !normalize_get by (auto; lia).
    repeat case_decide; try (exfalso; lia); destruct_and?; subst; try done; apply Qcplus_comm.
  Qed.

  (** Only the columns the constraint rows read matter. *)
Lemma pivot_tab_ext T pr pc cols cols' :
    (forall i, i < m -> cols i = cols' i) ->
    pivot_tab m n T pr pc cols = pivot_tab m n T pr pc cols'.
  Proof.
    intros H. unfold pivot_tab, eliminate. f_equal.
    assert (Hs : forall i, i ∈ seq 0 m -> cols i = cols' i)
      by (intros i Hi; apply H, elem_of_seq_0, Hi).
    generalize (normalize n T pr (get T pr pc)). induction (seq 0 m) as [|i is IH]; intros T'.
    - reflexivity.
    - cbn [fold_left]. rewrite (Hs i) by left. apply IH. intros k Hk. apply Hs. by right.
  Qed.
End Pivot.

(** ** The reductions *)

Lemma fold_left_inv {A} (Inv : list nat -> A -> Prop) (f : A -> nat -> A) js pre a :
  (forall l a j, Inv l a -> Inv (l ++ [j]) (f a j)) ->
  Inv pre a -> Inv (pre ++ js) (fold_left f js a).
Proof.
  intros Hf. revert pre a. induction js as [|j js IH]; intros pre a H; simpl.
  - by rewrite app_nil_r.
  - rewrite cons_middle, app_assoc. apply IH, Hf, H.
Qed.

Lemma Qclt_0_opp (x : Qc) : (x < 0)%Qc <-> (0 < - x)%Qc.
Proof.
  rewrite (Qclt_minus_iff x 0), (Qclt_minus_iff 0 (- x)).
  rewrite Qcplus_0_l. replace (- x + - 0)%Qc with (- x)%Qc; [done|].
  apply Qc_is_canon. simpl. rewrite !Qred_correct. ring.
Qed.

Section MaxSpec.
  Variables (ok : nat -> bool) (w : nat -> Qc).

Lemma max_spec_nil idx : max_spec ok w [] (MkMax 0 idx).
  Proof. left. split; [done|]. intros j Hj. by apply elem_of_nil in Hj. Qed.

Lemma max_spec_perm l1 l2 mx : l1 ≡ₚ l2 -> max_spec ok w l1 mx -> max_spec ok w l2 mx.
  Proof.
    intros Hp [[Hv Hall]|(j & Hj & Hok & Hpos & -> & Hall)].
    - left. split; [done|]. intros j Hj. apply Hall. by rewrite Hp.
    - right. exists j. repeat split; try done; [by rewrite <-Hp|].
      intros k Hk. apply Hall. by rewrite Hp.
  Qed.

Lemma max_spec_val_nonneg l mx : max_spec ok w l mx -> (0 <= max_val mx)%Qc.
  Proof.
    intros [[-> _]|(j & _ & _ & Hpos & -> & _)]; [apply Qcle_refl|].
    by apply Qclt_le_weak.
  Qed.

Lemma max_spec_step l mx j :
    max_spec ok w l mx ->
    max_spec ok w (l ++ [j])
      (if ok j && bool_decide (0 < w j)%Qc && bool_decide (max_val mx < w j)%Qc
       then MkMax (w j) (Z.of_nat j) else mx).
  Proof.
    intros Hs. pose proof (max_spec_val_nonneg _ _ Hs) as Hnn.
    destruct (ok j) eqn:Hok; simpl;
      [destruct (bool_decide_reflect (0 < w j)%Qc) as [Hp|Hp]; simpl;
       [destruct (bool_decide_reflect (max_val mx < w j)%Qc) as [Hlt|Hlt]; simpl|]|].
    - right. exists j. repeat split; try done; [set_solver|].
      intros k Hk Hokk. apply elem_of_app in Hk as [Hk|Hk].
      + destruct Hs as [[Hv Hall]|(i & Hi & _ & _ & -> & Hall)].
        * apply Qcle_trans with 0%Qc; [by apply Hall|by apply Qclt_le_weak].
        * apply Qcle_trans with (w i); [by apply Hall|by apply Qclt_le_weak].
      + apply list_elem_of_singleton in Hk as ->. apply Qcle_refl.
    - destruct Hs as [[Hv Hall]|(i & Hi & Hoki & Hpi & -> & Hall)].
      + exfalso. apply Hlt. by rewrite Hv.
      + right. exists i. repeat split; try done; [set_solver|].
        intros k Hk Hokk. apply elem_of_app in Hk as [Hk|Hk]; [by apply Hall|].
        apply list_elem_of_singleton in Hk as ->. by apply Qcnot_lt_le.
    - destruct Hs as [[Hv Hall]|(i & Hi & Hoki & Hpi & -> & Hall)].
      + left. split; [done|]. intros k Hk Hokk. apply elem_of_app in Hk as [Hk|Hk]; [by apply Hall|].
        apply list_elem_of_singleton in Hk as ->. by apply Qcnot_lt_le.
      + right. exists i. repeat split; try done; [set_solver|].
        intros k Hk Hokk. apply elem_of_app in Hk as [Hk|Hk]; [by apply Hall|].
        apply list_elem_of_singleton in Hk as ->.
        apply Qcle_trans with 0%Qc; [by apply Qcnot_lt_le|by apply Qclt_le_weak].
    - destruct Hs as [[Hv Hall]|(i & Hi & Hoki & Hpi & -> & Hall)].
      + left. split; [done|]. intros k Hk Hokk. apply elem_of_app in Hk as [Hk|Hk]; [by apply Hall|].
        apply list_elem_of_singleton in Hk as ->. congruence.
      + right. exists i. repeat split; try done; [set_solver|].
        intros k Hk Hokk. apply elem_of_app in Hk as [Hk|Hk]; [by apply Hall|].
        apply list_elem_of_singleton in Hk as ->. congruence.
  Qed.

Lemma max_spec_maximo l1 l2 a b :
    max_spec ok w l1 a -> max_spec ok w l2 b -> max_spec ok w (l1 ++ l2) (maximo a b).
  Proof.
    unfold maximo.
    intros [[Ha Hall1]|(i & Hi & Hoki & Hpi & -> & Hall1)]
           [[Hb Hall2]|(j & Hj & Hokj & Hpj & -> & Hall2)]; simpl.
    - rewrite Ha, Hb, bool_decide_eq_false_2 by apply Qcle_not_lt, Qcle_refl.
      left. split; [done|]. intros k Hk. apply elem_of_app in Hk as [Hk|Hk]; auto.
    - rewrite Ha, bool_decide_eq_false_2 by (apply Qcle_not_lt, Qclt_le_weak, Hpj).
      right. exists j. repeat split; try done; [set_solver|].
      intros k Hk Hok. apply elem_of_app in Hk as [Hk|Hk]; auto.
      apply Qcle_trans with 0%Qc; [auto|by apply Qclt_le_weak].
    - rewrite Hb, bool_decide_eq_true_2 by exact Hpi.
      right. exists i. repeat split; try done; [set_solver|].
      intros k Hk Hok. apply elem_of_app in Hk as [Hk|Hk]; auto.
      apply Qcle_trans with 0%Qc; [auto|by apply Qclt_le_weak].
    - destruct (bool_decide_reflect (w j < w i)%Qc) as [Hlt|Hlt].
      + right. exists i. repeat split; try done; [set_solver|].
        intros k Hk Hok. apply elem_of_app in Hk as [Hk|Hk]; auto.
        apply Qcle_trans with (w j); [auto|by apply Qclt_le_weak].
      + right. exists j. repeat split; try done; [set_solver|].
        intros k Hk Hok. apply elem_of_app in Hk as [Hk|Hk]; auto.
        apply Qcle_trans with (w i); [auto|by apply Qcnot_lt_le].
  Qed.
End MaxSpec.

Section MinSpec.
  Variables (elig : nat -> Prop) (rt : nat -> Qc).

Lemma min_spec_nil idx : min_spec elig rt [] (MkMin HUGE_VAL idx).
  Proof. left. split; [done|]. intros i Hi. by apply elem_of_nil in Hi. Qed.

Lemma min_spec_perm l1 l2 mn : l1 ≡ₚ l2 -> min_spec elig rt l1 mn -> min_spec elig rt l2 mn.
  Proof.
    intros Hp [[Hv Hall]|(i & Hi & He & -> & Hall)].
    - left. split; [done|]. intros i Hi. apply Hall. by rewrite Hp.
    - right. exists i. repeat split; try done; [by rewrite <-Hp|].
      intros k Hk. apply Hall. by rewrite Hp.
  Qed.

Lemma min_spec_step_elig l mn i :
    elig i -> min_spec elig rt l mn ->
    min_spec elig rt (l ++ [i])
      (if ext_lt (Fin (rt i)) (min_val mn) then MkMin (Fin (rt i)) (Z.of_nat i) else mn).
  Proof.
    intros Hei [[Hv Hall]|(k & Hk & Hek & -> & Hall)].
    - rewrite Hv. simpl. right. exists i. repeat split; try done; [set_solver|].
      intros k Hk Hek. apply elem_of_app in Hk as [Hk|Hk]; [by destruct (Hall k Hk)|].
      apply list_elem_of_singleton in Hk as ->. apply Qcle_refl.
    - simpl. destruct (bool_decide_reflect (rt i < rt k)%Qc) as [Hlt|Hlt].
      + right. exists i. repeat split; try done; [set_solver|].
        intros k' Hk' Hek'. apply elem_of_app in Hk' as [Hk'|Hk'].
        * apply Qcle_trans with (rt k); [by apply Qclt_le_weak|auto].
        * apply list_elem_of_singleton in Hk' as ->. apply Qcle_refl.
      + right. exists k. repeat split; try done; [set_solver|].
        intros k' Hk' Hek'. apply elem_of_app in Hk' as [Hk'|Hk']; [auto|].
        apply list_elem_of_singleton in Hk' as ->. by apply Qcnot_lt_le.
  Qed.

Lemma min_spec_step_inel l mn i :
    ~ elig i -> min_spec elig rt l mn -> min_spec elig rt (l ++ [i]) mn.
  Proof.
    intros Hni [[Hv Hall]|(k & Hk & Hek & -> & Hall)].
    - left. split; [done|]. intros k Hk. apply elem_of_app in Hk as [Hk|Hk]; [auto|].
      by apply list_elem_of_singleton in Hk as ->.
    - right. exists k. repeat split; try done; [set_solver|].
      intros k' Hk' Hek'. apply elem_of_app in Hk' as [Hk'|Hk']; [auto|].
      by apply list_elem_of_singleton in Hk' as ->.
  Qed.

Lemma min_spec_minimo l1 l2 a b :
    min_spec elig rt l1 a -> min_spec elig rt l2 b -> min_spec elig rt (l1 ++ l2) (minimo a b).
  Proof.
    unfold minimo.
    intros [[Ha Hall1]|(i & Hi & Hei & -> & Hall1)]
           [[Hb Hall2]|(j & Hj & Hej & -> & Hall2)]; simpl.
    - rewrite Ha. simpl. left. split; [done|].
      intros k Hk. apply elem_of_app in Hk as [Hk|Hk]; auto.
    - rewrite Ha. simpl. right. exists j. repeat split; try done; [set_solver|].
      intros k Hk Hek. apply elem_of_app in Hk as [Hk|Hk]; [by destruct (Hall1 k Hk)|auto].
    - rewrite Hb. simpl. right. exists i. repeat split; try done; [set_solver|].
      intros k Hk Hek. apply elem_of_app in Hk as [Hk|Hk]; [auto|by destruct (Hall2 k Hk)].
    - destruct (bool_decide_reflect (rt i < rt j)%Qc) as [Hlt|Hlt].
      + right. exists i. repeat split; try done; [set_solver|].
        intros k Hk Hek. apply elem_of_app in Hk as [Hk|Hk]; auto.
        apply Qcle_trans with (rt j); [by apply Qclt_le_weak|auto].
      + right. exists j. repeat split; try done; [set_solver|].
        intros k Hk Hek. apply elem_of_app in Hk as [Hk|Hk]; auto.
        apply Qcle_trans with (rt i); [by apply Qcnot_lt_le|auto].
  Qed.
End MinSpec.

Lemma length_filter_app {A} (P : A -> Prop) `{!forall x, Decision (P x)} l1 l2 :
  length (filter P (l1 ++ l2)) = length (filter P l1) + length (filter P l2).
Proof. by rewrite filter_app, length_app. Qed.

Lemma length_filter_snoc {A} (P : A -> Prop) `{!forall x, Decision (P x)} l x :
  length (filter P (l ++ [x])) = length (filter P l) + if decide (P x) then 1 else 0.
Proof. rewrite filter_app, length_app, filter_cons, filter_nil. by case_decide. Qed.

Lemma length_filter_perm {A} (P : A -> Prop) `{!forall x, Decision (P x)} l1 l2 :
  l1 ≡ₚ l2 -> length (filter P l1) = length (filter P l2).
Proof. intros Hp. by rewrite Hp. Qed.

Lemma init_scan_body_eq m T mx j :
  init_scan_body m T mx j =
  if (fun _ => true) j && bool_decide (0 < - get T m j)%Qc
     && bool_decide (max_val mx < - get T m j)%Qc
  then MkMax (- get T m j) (Z.of_nat j) else mx.
Proof.
  unfold init_scan_body. simpl.
  by rewrite (bool_decide_ext _ _ (Qclt_0_opp (get T m j))).
Qed.

(** The initial scan returns the most negative entry of the objective row
    over [j <= colNumb]. *)
Lemma initial_scan_spec m n t T :
  valid_tree (S n) t ->
  max_spec (fun _ => true) (fun j => - get T m j)%Qc (seq 0 (S n)) (initial_scan m t T).
Proof.
  intros Ht. unfold initial_scan.
  apply (reduce_valid _ _ _ (max_spec (fun _ => true) (fun j => - get T m j)%Qc)); auto.
  - apply max_spec_nil.
  - intros js. unfold init_scan_leaf.
    apply (fold_left_inv (max_spec _ _) _ js []); [|apply max_spec_nil].
    intros l a j H. rewrite init_scan_body_eq. by apply max_spec_step.
  - apply max_spec_maximo.
  - apply max_spec_perm.
Qed.

(** The ratio test counts the rows with a non-positive entry in column [pc]
    and returns a row of minimal ratio among the others. *)
Lemma ratio_reduce_spec m n t T pc mn :
  valid_tree m t -> min_val mn = HUGE_VAL ->
  ratio_inv m n T pc (seq 0 m) (reduce (0, mn) (ratio_leaf n T pc) ratio_comb t).
Proof.
  intros Ht Hv. destruct mn as [v idx]. simpl in Hv. subst v.
  apply (reduce_valid _ _ _ (ratio_inv m n T pc)); auto.
  - split; [done|]. apply min_spec_nil.
  - intros js. unfold ratio_leaf.
    apply (fold_left_inv (ratio_inv m n T pc) _ js []); [|split; [done|apply min_spec_nil]].
    intros l [c a] i [Hc Ha]. unfold ratio_body. simpl in Hc, Ha.
    destruct (bool_decide_reflect (0 < get T i pc)%Qc) as [Hp|Hp].
    + pose proof (min_spec_step_elig (fun i => 0 < get T i pc)%Qc
                   (fun i => get T i n / get T i pc)%Qc l a i Hp Ha) as H.
      revert H. destruct (ext_lt _ _); intros H; split; simpl; try exact H;
        rewrite length_filter_app, filter_singleton_False by tauto; simpl; lia.
    + split; simpl.
      * rewrite length_filter_app, filter_singleton_True by tauto. simpl. lia.
      * by apply min_spec_step_inel.
  - intros l1 l2 [c1 a] [c2 b] [H1 Ha] [H2 Hb]. split.
    + simpl in *. rewrite length_filter_app. lia.
    + by apply min_spec_minimo.
  - intros l1 l2 [c a] Hp [Hc Ha]. split.
    + simpl in *. rewrite Hc. by apply length_filter_perm.
    + by apply (min_spec_perm _ _ l1).
Qed.

(** The scan fused into the objective update counts the negative entries of
    the updated objective row over [j < colNumb] and returns the most
    negative one. *)
Lemma fused_scan_spec m n t T mx :
  valid_tree (S n) t -> max_val mx = 0%Qc ->
  scan_inv m n T (seq 0 (S n)) (fused_scan m n t T mx).
Proof.
  intros Ht Hv. destruct mx as [v idx]. simpl in Hv. subst v. unfold fused_scan.
  apply (reduce_valid _ _ _ (scan_inv m n T)); auto.
  - split; [done|]. apply max_spec_nil.
  - intros js. unfold scan_leaf.
    apply (fold_left_inv (scan_inv m n T) _ js []); [|split; [done|apply max_spec_nil]].
    intros l [c a] j [Hc Ha]. cbn [fst snd] in Hc, Ha |- *.
    pose proof (max_spec_step (fun j => j <? n) (fun j => - get T m j)%Qc l a j Ha) as Hst.
    rewrite <-(bool_decide_ext _ _ (Qclt_0_opp (get T m j))) in Hst.
    destruct (Nat.ltb_spec j n) as [Hj|Hj];
      destruct (bool_decide_reflect (get T m j < 0)%Qc) as [Hn|Hn];
      unfold scan_body;
      [rewrite (proj2 (Nat.ltb_lt j n) Hj), (bool_decide_eq_true_2 _ Hn) in *
      |rewrite (proj2 (Nat.ltb_lt j n) Hj), (bool_decide_eq_false_2 _ Hn) in *
      |rewrite (proj2 (Nat.ltb_ge j n) Hj) in *..];
      cbn [andb fst snd] in Hst |- *.
    + split; [|exact Hst]. cbn [fst].
      rewrite length_filter_snoc, decide_True by tauto. lia.
    + split; [|exact Hst]. cbn [fst].
      rewrite length_filter_snoc, decide_False by tauto. lia.
    + split; [|exact Hst]. cbn [fst].
      rewrite length_filter_snoc, decide_False by (intros [? ?]; lia). lia.
    + split; [|exact Hst]. cbn [fst].
      rewrite length_filter_snoc, decide_False by (intros [? ?]; lia). lia.
  - intros l1 l2 [c1 a] [c2 b] [H1 Ha] [H2 Hb]. split.
    + simpl in *. rewrite length_filter_app. lia.
    + by apply max_spec_maximo.
  - intros l1 l2 [c a] Hp [Hc Ha]. split.
    + simpl in *. rewrite Hc. by apply length_filter_perm.
    + by apply (max_spec_perm _ _ l1).
Qed.

(** ** Arithmetic of one pivot *)

Lemma Qcle_0_opp (x : Qc) : (x <= 0)%Qc <-> (0 <= - x)%Qc.
Proof. rewrite (Qcle_minus_iff x 0). by rewrite Qcplus_0_l. Qed.

Lemma Qclt_0_neq (x : Qc) : (0 < x)%Qc -> x <> 0%Qc.
Proof. intros H ->. exact (Qcle_not_lt 0 0 (Qcle_refl 0) H). Qed.

Lemma Qcdiv_nonneg (a b : Qc) : (0 <= a)%Qc -> (0 < b)%Qc -> (0 <= a / b)%Qc.
Proof.
  intros Ha Hb. unfold Qcdiv. apply Qcmult_nonneg_nonneg; [done|].
  by apply Qclt_le_weak, Qcinv_pos.
Qed.

(** A row with a positive entry [a] and a ratio [b / a] at least the
    pivot ratio [r] keeps a non-negative right-hand side. *)
Lemma Qc_ratio_step (a b r : Qc) : (0 < a)%Qc -> (r <= b / a)%Qc -> (0 <= b + - a * r)%Qc.
Proof.
  intros Ha Hr. apply (Qcmult_le_mono_pos_l _ _ a Ha) in Hr.
  replace (a * (b / a))%Qc with b in Hr by (field; by apply Qclt_0_neq).
  apply Qcle_minus_iff in Hr.
  by replace (- a * r)%Qc with (- (a * r))%Qc by ring.
Qed.

Lemma Qc_nonpos_step (a b r : Qc) :
  (a <= 0)%Qc -> (0 <= b)%Qc -> (0 <= r)%Qc -> (0 <= b + - a * r)%Qc.
Proof.
  intros Ha Hb Hr. apply Qcplus_nonneg_nonneg; [done|].
  apply Qcmult_nonneg_nonneg; [by apply Qcle_0_opp|done].
Qed.

Lemma Qcle_plus_nonneg (b y : Qc) : (0 <= y)%Qc -> (b <= b + y)%Qc.
Proof. intros H. apply (Qcplus_le_mono_l 0 y b) in H. by rewrite Qcplus_0_r in H. Qed.

(** ** Counting *)

Lemma length_filter_all {A} (P : A -> Prop) `{!forall x, Decision (P x)} l :
  (forall x, x ∈ l -> P x) -> length (filter P l) = length l.
Proof.
  induction l as [|x l IH]; intros Hall; [done|].
  rewrite filter_cons_True by (apply Hall; left). simpl. f_equal.
  apply IH. intros y Hy. apply Hall. by right.
Qed.

Lemma length_filter_none {A} (P : A -> Prop) `{!forall x, Decision (P x)} l :
  (forall x, x ∈ l -> ~ P x) -> length (filter P l) = 0.
Proof.
  induction l as [|x l IH]; intros Hall; [done|].
  rewrite filter_cons_False by (apply Hall; left).
  apply IH. intros y Hy. apply Hall. by right.
Qed.

(** ** The sentinels *)

(** The initial scan keeps the sentinel index [-1] unless it saw a
    negative entry. *)
Lemma initial_scan_sentinel m t T :
  max_val (initial_scan m t T) = 0%Qc -> max_index (initial_scan m t T) = (-1)%Z.
Proof.
  unfold initial_scan.
  apply (reduce_inv _ _ _ (fun _ mx => max_val mx = 0%Qc -> max_index mx = (-1)%Z)); auto.
  - intros js. unfold init_scan_leaf.
    apply (fold_left_inv (fun _ mx => max_val mx = 0%Qc -> max_index mx = (-1)%Z) _ js []);
      [|done].
    intros l mx j H. unfold init_scan_body.
    destruct (bool_decide_reflect (get T m j < 0)%Qc) as [Hn|Hn]; simpl; [|exact H].
    destruct (bool_decide_reflect (max_val mx < - get T m j)%Qc); simpl; [|exact H].
    intros Hv. exfalso. apply Qclt_0_opp in Hn. rewrite Hv in Hn.
    exact (Qcle_not_lt 0 0 (Qcle_refl 0) Hn).
  - intros l1 l2 a b Ha Hb. unfold maximo. by destruct (bool_decide _).
Qed.

(** The ratio test started from the default [Compare_Min] keeps the
    sentinel index [-1] unless it saw an eligible row. *)
Lemma ratio_sentinel n t T pc :
  min_val (reduce (0, Compare_Min_default) (ratio_leaf n T pc) ratio_comb t).2 = HUGE_VAL ->
  min_index (reduce (0, Compare_Min_default) (ratio_leaf n T pc) ratio_comb t).2 = (-1)%Z.
Proof.
  apply (reduce_inv _ _ _
    (fun _ (a : nat * Compare_Min) => min_val a.2 = HUGE_VAL -> min_index a.2 = (-1)%Z)); auto.
  - intros js. unfold ratio_leaf.
    apply (fold_left_inv
      (fun _ (a : nat * Compare_Min) => min_val a.2 = HUGE_VAL -> min_index a.2 = (-1)%Z) _ js []);
      [|done].
    intros l [c mn] i H. unfold ratio_body.
    destruct (bool_decide (0 < get T i pc)%Qc); [|exact H].
    destruct (ext_lt _ _); [done|exact H].
  - intros l1 l2 a b Ha Hb. unfold ratio_comb, minimo. simpl. by destruct (ext_lt _ _).
Qed.

Lemma col_in_range_of_nat n j : col_in_range n (Z.of_nat j) = true <-> j <= n.
Proof. unfold col_in_range. rewrite andb_true_iff, !Z.leb_le. lia. Qed.

Lemma ratio_test_spec m n t T z mn :
  valid_tree m t -> min_val mn = HUGE_VAL ->
  (ratio_test m n t T z mn = None /\ m <> 0 /\ col_in_range n z = false) \/
  (exists r, ratio_test m n t T z mn = Some r /\ (m = 0 \/ col_in_range n z = true) /\
     ratio_inv m n T (Z.to_nat z) (seq 0 m) r).
Proof.
  intros Ht Hv. unfold ratio_test.
  destruct ((m =? 0) || col_in_range n z) eqn:E.
  - right. eexists. split; [reflexivity|]. split; [|by apply ratio_reduce_spec].
    apply orb_true_iff in E as [E|E]; [left; by apply Nat.eqb_eq|by right].
  - left. apply orb_false_iff in E as [E1 E2]. split; [done|].
    split; [by apply Nat.eqb_neq|done].
Qed.

(** ** One iteration *)

Lemma init_inv m n sc T : valid_schedule m n sc -> wf m n T -> inv m n (init m sc T).
Proof.
  intros (Hti & _) Hwf. unfold inv, init.
  cbn [st_tab st_max st_min st_ni max_val max_index min_val].
  split; [done|]. split; [done|]. split; [done|].
  destruct (initial_scan_spec m n (sc_init sc) T Hti) as [[Hv _]|(j & Hj & _ & Hpos & Heq & _)].
  - left. by apply initial_scan_sentinel.
  - right. exists j. rewrite Heq. cbn [max_index]. apply elem_of_seq_0 in Hj.
    split; [lia|]. split; [done|]. by apply Qclt_0_opp.
Qed.

(** The shared variable before any merge is the original value. *)
Lemma stages_head {A} (orig : A) leaf comb t :
  nth 0 (stages orig leaf comb t) orig = orig.
Proof.
  induction t as [js| |l _ r IH]; [done|done|]. cbn [stages].
  destruct (stages orig leaf comb r) as [|x st]; [done|]. exact IH.
Qed.

(** A row that sees no merge reads the entering column. *)
Lemma elim_cols_unseen m n sc s pr pc i :
  sc_seen sc (st_ni s) i = 0 ->
  elim_cols m n sc s pr pc i = Z.to_nat (max_index (st_max s)).
Proof.
  intros H. unfold elim_cols, shared_max. rewrite H, stages_head. reflexivity.
Qed.

(** With one thread every row reads the entering column. *)
Lemma elim_cols_one_thread m n sc s pr pc i :
  valid_schedule m n sc -> sc_threads sc = 1 ->
  elim_cols m n sc s pr pc i = Z.to_nat (max_index (st_max s)).
Proof.
  intros (_ & _ & _ & _ & Hseen) Ht. apply elim_cols_unseen.
  destruct (Hseen (st_ni s) i) as [H|[H _]]; [done|lia].
Qed.

(** What one iteration does from a state of the invariant: it stops as
    unbounded, it fails with an access out of bounds (the sentinel column,
    or the race of the single nowait of line 319 with several threads), or
    it pivots on a column with a negative objective entry and a row of
    least ratio, after which it stops as optimal or goes on from a state of
    the invariant with a new negative entering column. *)
Lemma step_cases m n sc s :
  valid_schedule m n sc -> inv m n s ->
  step m n sc s = Halt Unbounded \/
  (step m n sc s = Halt OutOfBounds /\ (max_index (st_max s) = (-1)%Z \/ 1 < sc_threads sc)) \/
  exists pc pr, max_index (st_max s) = Z.of_nat pc /\ pc <= n /\ (get (st_tab s) m pc < 0)%Qc /\
    min_ratio_row m n (st_tab s) pc pr /\
    ((step m n sc s = Halt (Optimal (pivot_tab m n (st_tab s) pr pc (elim_cols m n sc s pr pc))
                               (S (st_ni s))) /\
      forall j, j < n ->
        (0 <= get (pivot_tab m n (st_tab s) pr pc (elim_cols m n sc s pr pc)) m j)%Qc) \/
     (exists s', step m n sc s = Next s' /\
        st_tab s' = pivot_tab m n (st_tab s) pr pc (elim_cols m n sc s pr pc) /\
        st_ni s' = S (st_ni s) /\ inv m n s' /\
        exists j, j < n /\ max_index (st_max s') = Z.of_nat j /\ (get (st_tab s') m j < 0)%Qc)).
Proof.
  intros (Hti & Hrat & Hsc & Hth) (Hwf & Hmv & Hmn & Hidx).
  destruct s as [T mx mn ni]. cbn [st_tab st_max st_min st_ni] in *.
  unfold step. cbn [st_tab st_max st_min st_ni].
  destruct (ratio_test_spec m n (sc_ratio sc ni) T (max_index mx) mn (Hrat ni) Hmn)
    as [(-> & Hm & Hcr)|([c mn'] & -> & Hcase & Hc & Hmin)].
  - right; left. split; [done|]. left.
    destruct Hidx as [Hidx|(pc & Hpc & Hidx & _)]; [done|].
    exfalso. rewrite Hidx in Hcr. apply col_in_range_of_nat in Hpc. congruence.
  - cbn [fst snd] in Hc, Hmin. cbn beta iota zeta.
    destruct (Nat.eqb_spec c m) as [Hcm|Hcm].
    + destruct ((1 <? sc_threads sc) && negb (row_in_range m (min_index mn'))) eqn:Er.
      * right; left. split; [done|]. right.
        apply andb_true_iff in Er as [Er _]. by apply Nat.ltb_lt.
      * by left.
    + right; right.
      destruct Hidx as [Hidx|(pc & Hpc & Hidx & Hneg)].
      * exfalso. rewrite Hidx in Hcase. destruct Hcase as [->|Hcase]; [|done].
        apply Hcm. by rewrite Hc.
      * rewrite Hidx, Nat2Z.id in *.
        destruct Hmin as [[_ Hall]|(pr & Hpr & Hel & -> & Hall)].
        -- exfalso. apply Hcm. rewrite Hc, length_filter_all; [apply length_seq|].
           intros i Hi. by apply Hall.
        -- apply elem_of_seq_0 in Hpr. cbn [min_index]. rewrite Nat2Z.id.
           exists pc, pr. split; [done|]. split; [done|]. split; [done|].
           split.
           { split; [done|]. split; [done|]. intros k Hk Hek.
             apply Hall; [by apply elem_of_seq_0|done]. }
           pose proof (fused_scan_spec m n (sc_scan sc ni) (pivot_tab m n T pr pc (elim_cols m n sc (MkState T mx mn ni) pr pc)) mx (Hsc ni) Hmv)
             as Hs.
           destruct (fused_scan m n (sc_scan sc ni) (pivot_tab m n T pr pc (elim_cols m n sc (MkState T mx mn ni) pr pc)) mx) as [conta mx'].
           destruct Hs as [Hconta Hmx']. cbn [fst snd] in Hconta, Hmx'.
           destruct (Nat.eqb_spec conta 0) as [->|Hc0].
           ++ left. split; [done|]. intros j Hj. apply Qcnot_lt_le. intros Hlt.
              symmetry in Hconta. apply length_zero_iff_nil in Hconta.
              apply (filter_nil_not_elem_of _ _ j Hconta); [split; done|].
              apply elem_of_seq_0. lia.
           ++ right. eexists. split; [reflexivity|].
              cbn [st_tab st_max st_min st_ni max_val max_index min_val].
              destruct Hmx' as [[_ Hall']|(j & Hj & Hok & Hpos & -> & _)].
              ** exfalso. apply Hc0. rewrite Hconta. apply length_filter_none.
                 intros j Hj [Hjn Hneg'].
                 pose proof (Hall' j Hj (proj2 (Nat.ltb_lt j n) Hjn)) as Hle.
                 apply Qclt_0_opp in Hneg'. exact (Qcle_not_lt _ _ Hle Hneg').
              ** apply elem_of_seq_0 in Hj. apply Nat.ltb_lt in Hok.
                 apply Qclt_0_opp in Hpos. cbn [max_index].
                 split; [done|]. split; [done|].
                 split; [split; [by apply pivot_tab_wf|]|].
                 --- split; [done|]. split; [done|]. right. exists j.
                     split; [lia|]. split; done.
                 --- exists j. split; [done|]. split; done.
Qed.

Lemma reach_inv m n sc T0 s :
  valid_schedule m n sc -> wf m n T0 -> reach m n sc T0 s -> inv m n s.
Proof.
  intros Hsc Hwf Hr. induction Hr as [|s s' Hr IH Hst].
  - by apply init_inv.
  - destruct (step_cases m n sc s Hsc IH)
      as [H|[[H _]|(pc & pr & _ & _ & _ & _ & [[H _]|(s'' & H & _ & _ & Hi & _)])]];
      rewrite Hst in H; try discriminate.
    by injection H as ->.
Qed.

(** A run that stops does so at a reachable state. *)
Lemma loop_halt m n sc T0 fuel s :
  reach m n sc T0 s ->
  loop m n sc fuel s = OutOfFuel \/
  exists s', reach m n sc T0 s' /\ step m n sc s' = Halt (loop m n sc fuel s).
Proof.
  revert s. induction fuel as [|f IH]; intros s Hr; [by left|]. cbn [loop].
  destruct (step m n sc s) as [s'|o] eqn:E.
  - apply IH. by apply (reach_step _ _ _ _ s).
  - right. by exists s.
Qed.

Lemma run_halt m n sc fuel T0 :
  run m n sc fuel T0 = OutOfFuel \/
  exists s', reach m n sc T0 s' /\ step m n sc s' = Halt (run m n sc fuel T0).
Proof. apply loop_halt, reach_init. Qed.

(** ** Feasibility and the objective value along a run *)

Lemma pivot_feasible m n T pc pr cols :
  wf m n T -> feasible m n T -> min_ratio_row m n T pc pr ->
  (forall i, i < m -> cols i = pc) ->
  feasible m n (pivot_tab m n T pr pc cols).
Proof.
  intros Hwf Hf (Hpr & Hpos & Hmin) Hcols i Hi.
  rewrite pivot_tab_get by done. rewrite decide_True by lia.
  destruct (decide (i = pr)) as [->|Hne].
  - apply Qcdiv_nonneg; auto.
  - rewrite decide_True by lia. rewrite Hcols by done.
    destruct (Qclt_le_dec 0 (get T i pc)) as [Hp|Hp].
    + apply Qc_ratio_step; auto.
    + apply Qc_nonpos_step; auto. apply Qcdiv_nonneg; auto.
Qed.

Lemma reach_feasible m n sc T0 s :
  valid_schedule m n sc -> sc_threads sc = 1 -> wf m n T0 -> feasible m n T0 ->
  reach m n sc T0 s -> feasible m n (st_tab s).
Proof.
  intros Hsc Ht1 Hwf Hf Hr. induction Hr as [|s s' Hr IH Hst]; [done|].
  pose proof (reach_inv _ _ _ _ _ Hsc Hwf Hr) as Hi.
  destruct (step_cases m n sc s Hsc Hi)
    as [H|[[H _]|(pc & pr & Hidx & _ & _ & Hmr & [[H _]|(s'' & H & Ht & _ & _ & _)])]];
    rewrite Hst in H; try discriminate.
  injection H as <-. rewrite Ht. apply pivot_feasible; auto; [apply Hi|].
  intros i _. rewrite elim_cols_one_thread, Hidx by done. apply Nat2Z.id.
Qed.

Lemma pivot_objective_nondecreasing m n T pc pr cols :
  wf m n T -> feasible m n T -> (get T m pc < 0)%Qc -> min_ratio_row m n T pc pr ->
  (get T m n <= get (pivot_tab m n T pr pc cols) m n)%Qc.
Proof.
  intros Hwf Hf Hneg (Hpr & Hpos & _). rewrite pivot_tab_get by done.
  rewrite decide_True by lia. rewrite decide_False by lia. rewrite decide_False by lia.
  rewrite decide_True by lia.
  apply Qcle_plus_nonneg, Qcmult_nonneg_nonneg.
  - apply Qclt_le_weak. by apply Qclt_0_opp.
  - apply Qcdiv_nonneg; auto.
Qed.

(** ** Concrete inputs *)

Lemma single_thread_valid m n : valid_schedule m n (single_thread m n).
Proof.
  unfold valid_schedule, valid_tree.
  cbn [single_thread sc_init sc_ratio sc_scan sc_threads sc_seen parts].
  rewrite !app_nil_r. split; [done|]. split; [done|]. split; [done|]. split; [lia|by left].
Qed.

Lemma two_threads_valid m n : valid_schedule m n (two_threads m n).
Proof.
  unfold valid_schedule, valid_tree.
  cbn [two_threads sc_init sc_ratio sc_scan sc_threads sc_seen parts].
  rewrite !app_nil_r, <-!seq_app.
  assert (Hd : forall k, Nat.div2 k <= k) by (intros k; apply Nat.div2_decr; lia).
  split; [|split; [|split; [|split; [lia|by left]]]]; try intros _;
    f_equiv; pose proof (Hd (S n)); pose proof (Hd m); lia.
Qed.

Lemma example_tab_wf : wf 3 5 example_tab.
Proof. wf_concrete. Qed.

Lemma example_tab_feasible : feasible 3 5 example_tab.
Proof. intros i Hi. do 3 (destruct i as [|i]; [decide_concrete|]). lia. Qed.

(** ** Reductions with a unique optimum *)

Lemma max_spec_unique ok w js mx j :
  max_spec ok w js mx ->
  j ∈ js -> ok j = true -> (0 < w j)%Qc ->
  (forall k, k ∈ js -> ok k = true -> k <> j -> (w k < w j)%Qc) ->
  mx = MkMax (w j) (Z.of_nat j).
Proof.
  intros [[Hv Hall]|(k & Hk & Hokk & Hposk & -> & Hall)] Hj Hok Hpos Hlt.
  - exfalso. exact (Qcle_not_lt _ _ (Hall j Hj Hok) Hpos).
  - destruct (decide (k = j)) as [->|Hne]; [done|].
    exfalso. exact (Qcle_not_lt _ _ (Hall j Hj Hok) (Hlt k Hk Hokk Hne)).
Qed.

Lemma min_spec_unique (elig : nat -> Prop) rt is mn i :
  min_spec elig rt is mn ->
  i ∈ is -> elig i -> (forall k, k ∈ is -> elig k -> k <> i -> (rt i < rt k)%Qc) ->
  mn = MkMin (Fin (rt i)) (Z.of_nat i).
Proof.
  intros [[Hv Hall]|(k & Hk & Hek & -> & Hall)] Hi Hel Hlt.
  - exfalso. exact (Hall i Hi Hel).
  - destruct (decide (k = i)) as [->|Hne]; [done|].
    exfalso. exact (Qcle_not_lt _ _ (Hall i Hi Hel) (Hlt k Hk Hek Hne)).
Qed.

Lemma ratio_test_in_range m n t T pc mn :
  pc <= n ->
  ratio_test m n t T (Z.of_nat pc) mn = Some (reduce (0, mn) (ratio_leaf n T pc) ratio_comb t).
Proof.
  intros H. unfold ratio_test.
  rewrite (proj2 (col_in_range_of_nat n pc) H), orb_true_r, Nat2Z.id. reflexivity.
Qed.

(** One iteration whose ratio test and next scan have unique optima, and
    whose elimination reads the entering column in every row: its result
    does not depend on the schedule. *)
Lemma step_determined m n sc s pc pr :
  valid_schedule m n sc -> inv m n s ->
  max_index (st_max s) = Z.of_nat pc -> pc <= n ->
  (forall i, i < m -> elim_cols m n sc s pr pc i = pc) ->
  pr ∈ seq 0 m -> (0 < get (st_tab s) pr pc)%Qc ->
  (forall k, k ∈ seq 0 m -> (0 < get (st_tab s) k pc)%Qc -> k <> pr ->
     (get (st_tab s) pr n / get (st_tab s) pr pc < get (st_tab s) k n / get (st_tab s) k pc)%Qc) ->
  (length (filter (fun j => j < n /\ (get (pivot_tab m n (st_tab s) pr pc (fun _ => pc)) m j < 0)%Qc)
     (seq 0 (S n))) = 0 ->
   step m n sc s = Halt (Optimal (pivot_tab m n (st_tab s) pr pc (fun _ => pc)) (S (st_ni s)))) /\
  (forall j, j ∈ seq 0 (S n) -> (j <? n) = true ->
     (0 < - get (pivot_tab m n (st_tab s) pr pc (fun _ => pc)) m j)%Qc ->
     (forall k, k ∈ seq 0 (S n) -> (k <? n) = true -> k <> j ->
        (- get (pivot_tab m n (st_tab s) pr pc (fun _ => pc)) m k <
         - get (pivot_tab m n (st_tab s) pr pc (fun _ => pc)) m j)%Qc) ->
     step m n sc s = Next (MkState (pivot_tab m n (st_tab s) pr pc (fun _ => pc)) (MkMax 0 (Z.of_nat j))
                            (MkMin HUGE_VAL (Z.of_nat pr)) (S (st_ni s)))).
Proof.
  intros (Hti & Hrat & Hsc & Hth) (Hwf & Hmv & Hmn & _) Hidx Hpc Hcols Hpr Hel Hlt.
  destruct s as [T mx mn ni]. cbn [st_tab st_max st_min st_ni] in *.
  unfold step. cbn [st_tab st_max st_min st_ni]. rewrite Hidx.
  rewrite ratio_test_in_range by done.
  pose proof (ratio_reduce_spec m n (sc_ratio sc ni) T pc mn (Hrat ni) Hmn) as [Hc Hmin].
  destruct (reduce _ _ _ _) as [c mn'] eqn:E. cbn [fst snd] in Hc, Hmin.
  rewrite (min_spec_unique _ _ _ _ pr Hmin Hpr Hel Hlt).
  assert (Hcm : c <> m).
  { rewrite Hc. intros Heq.
    pose proof (length_filter_lt (fun i => ~ (0 < get T i pc)%Qc) (seq 0 m) pr Hpr) as Hl.
    rewrite length_seq, Heq in Hl. apply (Nat.lt_irrefl m), Hl. intros Hn. by apply Hn. }
  cbn beta iota zeta. rewrite (proj2 (Nat.eqb_neq c m) Hcm). cbn [min_index]. rewrite !Nat2Z.id.
  rewrite (pivot_tab_ext m n T pr pc _ (fun _ => pc) Hcols).
  pose proof (fused_scan_spec m n (sc_scan sc ni) (pivot_tab m n T pr pc (fun _ => pc)) mx (Hsc ni) Hmv)
    as [Hconta Hmx'].
  destruct (fused_scan m n (sc_scan sc ni) (pivot_tab m n T pr pc (fun _ => pc)) mx) as [conta mx'].
  cbn [fst snd] in Hconta, Hmx'.
  split.
  - intros H0. rewrite <-Hconta in H0. by rewrite H0.
  - intros j Hj Hok Hpos Hlt'. rewrite (max_spec_unique _ _ _ _ j Hmx' Hj Hok Hpos Hlt').
    destruct conta as [|conta]; [|reflexivity].
    exfalso. symmetry in Hconta. apply length_zero_iff_nil in Hconta.
    apply (filter_nil_not_elem_of _ _ j Hconta); [|done].
    split; [by apply Nat.ltb_lt|by apply Qclt_0_opp].
Qed.

Lemma run_first m n sc fuel T :
  run m n sc (S fuel) T =
  match step m n sc (init m sc T) with Next s => loop m n sc fuel s | Halt o => o end.
Proof. reflexivity. Qed.

(** ** The combiners *)

Ltac qc_order :=
  repeat match goal with
  | H : ~ (_ < _)%Qc |- _ => apply Qcnot_lt_le in H
  end;
  unfold Qclt, Qcle in *; lra.

Lemma Qc_total_eq (x y : Qc) : ~ (x < y)%Qc -> ~ (y < x)%Qc -> x = y.
Proof. intros H1 H2. apply Qcle_antisym; by apply Qcnot_lt_le. Qed.

(** ** Runs that do not stop *)

Lemma reach_entering m n sc T0 s :
  valid_schedule m n sc -> wf m n T0 -> (exists j, j <= n /\ (get T0 m j < 0)%Qc) ->
  reach m n sc T0 s -> max_index (st_max s) <> (-1)%Z.
Proof.
  intros Hsc Hwf (j0 & Hj0 & Hneg0) Hr. induction Hr as [|s s' Hr IH Hst].
  - unfold init. cbn [st_max max_index].
    destruct (initial_scan_spec m n (sc_init sc) T0 (proj1 Hsc))
      as [[_ Hall]|(j & _ & _ & _ & -> & _)]; [|cbn [max_index]; lia].
    exfalso. apply Qclt_0_opp in Hneg0.
    exact (Qcle_not_lt _ _ (Hall j0 ltac:(apply elem_of_seq_0; lia) eq_refl) Hneg0).
  - pose proof (reach_inv _ _ _ _ _ Hsc Hwf Hr) as Hi.
    destruct (step_cases m n sc s Hsc Hi)
      as [H|[[H _]|(pc & pr & _ & _ & _ & _ & [[H _]|(s'' & H & _ & _ & _ & j & _ & Hj & _)])]];
      rewrite Hst in H; try discriminate.
    injection H as <-. rewrite Hj. lia.
Qed.

(** With one thread the iteration counter does not influence an iteration. *)
Lemma step_single_ni m n T mx mn k :
  step m n (single_thread m n) (MkState T mx mn k) =
  bump k (step m n (single_thread m n) (MkState T mx mn 0)).
Proof.
  unfold step. cbn [st_tab st_max st_min st_ni sc_ratio sc_scan single_thread].
  destruct (ratio_test _ _ _ _ _ _) as [[c mn']|]; [|reflexivity].
  cbn beta iota zeta.
  destruct (c =? m); [destruct (_ && _); reflexivity|].
  destruct (fused_scan _ _ _ _ _) as [conta mx'].
  destruct (conta =? 0); reflexivity.
Qed.

Lemma loop_single_ni m n fuel T mx mn k :
  loop m n (single_thread m n) fuel (MkState T mx mn k) =
  bump_outcome k (loop m n (single_thread m n) fuel (MkState T mx mn 0)).
Proof.
  revert T mx mn k. induction fuel as [|f IH]; intros T mx mn k; [reflexivity|].
  cbn [loop]. rewrite step_single_ni.
  destruct (step m n (single_thread m n) (MkState T mx mn 0)) as [[T' mx' mn' ni']|o];
    cbn [bump st_tab st_max st_min st_ni]; [|reflexivity].
  rewrite (IH T' mx' mn' (ni' + k)), (IH T' mx' mn' ni').
  destruct (loop _ _ _ f _) as [T'' ni''| | |]; cbn [bump_outcome]; try reflexivity.
  f_equal. lia.
Qed.

Lemma loop_steps m n sc k f s s' :
  steps m n sc k s = Next s' -> loop m n sc (k + f) s = loop m n sc f s'.
Proof.
  revert s. induction k as [|k IH]; intros s H; cbn [steps] in H.
  - by injection H as ->.
  - cbn [loop Nat.add]. destruct (step m n sc s) as [s''|o]; [by apply IH|discriminate].
Qed.

Lemma loop_S m n sc f s :
  loop m n sc (S f) s = match step m n sc s with Next s' => loop m n sc f s' | Halt o => o end.
Proof. reflexivity. Qed.

Lemma beale_S_period :
  steps 3 7 (single_thread 3 7) 6 beale_S = Next (MkState beale (MkMax 0 0) (MkMin HUGE_VAL 1) 6).
Proof. decide_concrete. Qed.

Lemma beale_S_loop fuel : loop 3 7 (single_thread 3 7) fuel beale_S = OutOfFuel.
Proof.
  induction fuel as [fuel IH] using lt_wf_ind.
  destruct (decide (fuel < 6)) as [Hlt|Hge].
  - do 6 (destruct fuel as [|fuel]; [decide_concrete|]). lia.
  - replace fuel with (6 + (fuel - 6)) by lia.
    rewrite (loop_steps _ _ _ _ _ _ _ beale_S_period), loop_single_ni.
    fold beale_S. rewrite IH by lia. reflexivity.
Qed.

(** Beale's tableau: the one-thread run pivots through six degenerate
    bases and back, whatever the fuel. *)
Lemma beale_cycles fuel : run 3 7 (single_thread 3 7) fuel beale = OutOfFuel.
Proof.
  destruct fuel as [|f]; [reflexivity|].
  assert (Hs : step 3 7 (single_thread 3 7) (init 3 (single_thread 3 7) beale) =
               step 3 7 (single_thread 3 7) beale_S) by decide_concrete.
  rewrite run_first, Hs, <-loop_S. apply beale_S_loop.
Qed.

Lemma beale_wf : wf 3 7 beale.
Proof. wf_concrete. Qed.

Lemma beale_feasible : feasible 3 7 beale.
Proof. intros i Hi. do 3 (destruct i as [|i]; [decide_concrete|]). lia. Qed.

Lemma example_race_valid : valid_schedule 3 5 example_race.
Proof.
  pose proof (two_threads_valid 3 5) as (Hi & Hr & Hs & _).
  split; [exact Hi|]. split; [exact Hr|]. split.
  - intros k. unfold example_race. cbn [sc_scan].
    destruct (k <=? 1); [|apply Hs]. unfold valid_tree. reflexivity.
  - split; [cbn; lia|]. intros k i. unfold example_race. cbn [sc_seen sc_threads sc_scan].
    destruct (Nat.leb_spec k 1) as [Hk|Hk].
    + destruct (_ || _); [|by left]. right. split; [lia|]. exists 2. split; [reflexivity|lia].
    + left. destruct (Nat.eqb_spec k 0), (Nat.eqb_spec k 1); try lia. reflexivity.
Qed.

(** * The claims *)

(** C1: one pivot on row [pr] and column [pc] divides the pivot row by the
    pivot entry over all columns, the right-hand side included; every other
    constraint row [r] becomes [T[r][c] + (- T[r][pc]) * T'[pr][c]] with
    [T'[pr]] the normalized pivot row; and the objective row is updated in
    the same way with the factor [- T[m][pc]] of the tableau before the
    pivot.  This holds when every constraint row reads the column [pc] at
    line 341, which one thread always does.  With two threads the loop of
    line 338, being nowait, races with the reduction of line 349: on the
    spec's example, the first pivot (row 1, column 1) leaves in row 0 the
    right-hand side -2, where the formula gives 4. *)
Theorem pivot_transforms_tableau :
  (forall m n T pr pc cols,
     wf m n T -> pr < m -> (forall r, r < m -> r <> pr -> cols r = pc) ->
     forall c, c <= n ->
     get (pivot_tab m n T pr pc cols) pr c = (get T pr c / get T pr pc)%Qc /\
     (forall r, r < m -> r <> pr ->
        get (pivot_tab m n T pr pc cols) r c =
        (get T r c + - get T r pc * (get T pr c / get T pr pc))%Qc) /\
     get (pivot_tab m n T pr pc cols) m c =
     (get T m c + - get T m pc * (get T pr c / get T pr pc))%Qc) /\
  (forall m n sc s pr pc i, valid_schedule m n sc -> sc_threads sc = 1 ->
     elim_cols m n sc s pr pc i = Z.to_nat (max_index (st_max s))) /\
  (valid_schedule 3 5 example_race /\ sc_threads example_race = 2 /\
   exists s1, step 3 5 example_race (init 3 example_race example_tab) = Next s1 /\
     max_index (st_max (init 3 example_race example_tab)) = 1%Z /\ min_index (st_min s1) = 1%Z /\
     get (st_tab s1) 0 5 = qz (-2) /\
     (get example_tab 0 5 + - get example_tab 0 1 * (get example_tab 1 5 / get example_tab 1 1))%Qc
     = qz 4).
Proof.
  split; [|split].
  - intros m n T pr pc cols Hwf Hpr Hcols c Hc.
    split; [|split; [intros r Hr Hne|]]; rewrite pivot_tab_get by done;
      repeat case_decide; try (exfalso; lia); try done.
    by rewrite Hcols.
  - intros m n sc s pr pc i Hsc Ht. by apply elim_cols_one_thread.
  - split; [exact example_race_valid|]. split; [reflexivity|].
    exists (match step 3 5 example_race (init 3 example_race example_tab) with
            | Next s => s | Halt _ => init 3 example_race example_tab end).
    split; [decide_concrete|]. split; [decide_concrete|]. split; [decide_concrete|].
    split; decide_concrete.
Qed.

Lemma pivot_transforms_tableau_witness :
  get (pivot_tab 3 5 example_tab 1 1 (fun _ => 1)) 1 5 = (get example_tab 1 5 / get example_tab 1 1)%Qc /\
  get (pivot_tab 3 5 example_tab 1 1 (fun _ => 1)) 0 5 =
  (get example_tab 0 5 + - get example_tab 0 1 * (get example_tab 1 5 / get example_tab 1 1))%Qc /\
  get (pivot_tab 3 5 example_tab 1 1 (fun _ => 1)) 3 5 =
  (get example_tab 3 5 + - get example_tab 3 1 * (get example_tab 1 5 / get example_tab 1 1))%Qc.
Proof.
  destruct (proj1 pivot_transforms_tableau 3 5 example_tab 1 1 (fun _ => 1)
              example_tab_wf ltac:(lia) ltac:(done) 5 ltac:(lia)) as (H1 & H2 & H3).
  split; [exact H1|]. split; [exact (H2 0 ltac:(lia) ltac:(lia))|exact H3].
Defined.

(** C4: when a run stops as optimal ([conta == 0] after a pivot), every
    entry of the objective row but the right-hand side is non-negative,
    whatever the schedule, races of line 341 included. *)
Theorem optimal_objective_row_nonneg m n sc fuel T0 T ni :
  valid_schedule m n sc -> wf m n T0 -> run m n sc fuel T0 = Optimal T ni ->
  forall j, j < n -> (0 <= get T m j)%Qc.
Proof.
  intros Hsc Hwf Hrun.
  destruct (run_halt m n sc fuel T0) as [H|(s & Hr & Hst)]; [congruence|].
  rewrite Hrun in Hst.
  pose proof (reach_inv _ _ _ _ _ Hsc Hwf Hr) as Hi.
  destruct (step_cases m n sc s Hsc Hi)
    as [H|[[H _]|(pc & pr & _ & _ & _ & _ & [[H Hnn]|(s' & H & _)])]];
    rewrite Hst in H; try discriminate.
  injection H as -> _. exact Hnn.
Qed.

Lemma optimal_objective_row_nonneg_witness :
  exists T, run 3 5 example_race 3 example_tab = Optimal T 3 /\ (0 <= get T 3 0)%Qc.
Proof.
  remember (match run 3 5 example_race 3 example_tab with
            | Optimal T _ => T | _ => example_tab end) as T eqn:ET.
  assert (H : run 3 5 example_race 3 example_tab = Optimal T 3) by (subst T; decide_concrete).
  exists T. split; [exact H|].
  apply (optimal_objective_row_nonneg 3 5 example_race 3 example_tab T 3
           example_race_valid example_tab_wf H). lia.
Defined.

(** C5: from a tableau whose constraint rows have non-negative right-hand
    sides, with one thread, the right-hand sides of the constraint rows are
    non-negative at the start of every iteration, the pivot row being the
    least-ratio row the ratio test returns.  With two threads the race of
    line 341 breaks it: on the spec's example the second iteration starts
    with the right-hand side -2 in row 0. *)
Theorem rhs_nonneg_every_iteration :
  (forall m n sc T0 s,
     valid_schedule m n sc -> sc_threads sc = 1 -> wf m n T0 -> feasible m n T0 ->
     reach m n sc T0 s ->
     forall i, i < m -> (0 <= get (st_tab s) i n)%Qc) /\
  (valid_schedule 3 5 example_race /\ sc_threads example_race = 2 /\ feasible 3 5 example_tab /\
   exists s, reach 3 5 example_race example_tab s /\ st_ni s = 1 /\ get (st_tab s) 0 5 = qz (-2)).
Proof.
  split.
  - intros m n sc T0 s Hsc Ht Hwf Hf Hr. exact (reach_feasible m n sc T0 s Hsc Ht Hwf Hf Hr).
  - split; [exact example_race_valid|]. split; [reflexivity|]. split; [exact example_tab_feasible|].
    exists (match step 3 5 example_race (init 3 example_race example_tab) with
            | Next s => s | Halt _ => init 3 example_race example_tab end).
    split; [|split; decide_concrete].
    eapply reach_step; [apply reach_init|decide_concrete].
Qed.

Lemma rhs_nonneg_every_iteration_witness :
  (0 <= get (st_tab (init 3 (single_thread 3 5) example_tab)) 2 5)%Qc.
Proof.
  apply (proj1 rhs_nonneg_every_iteration 3 5 (single_thread 3 5) example_tab).
  - apply single_thread_valid.
  - reflexivity.
  - apply example_tab_wf.
  - apply example_tab_feasible.
  - apply reach_init.
  - lia.
Defined.

(** C6: from a tableau whose constraint rows have non-negative right-hand
    sides, with one thread, the objective value [T[m][n]] does not decrease
    from one iteration to the next, nor from the last iteration to the
    optimal tableau.  With two threads the race of line 341 breaks it: on
    the spec's example the objective value falls from 30 to 24 in the
    second iteration. *)
Theorem objective_nondecreasing :
  (forall m n sc T0 s,
     valid_schedule m n sc -> sc_threads sc = 1 -> wf m n T0 -> feasible m n T0 ->
     reach m n sc T0 s ->
     (forall s', step m n sc s = Next s' -> (get (st_tab s) m n <= get (st_tab s') m n)%Qc) /\
     (forall T ni, step m n sc s = Halt (Optimal T ni) -> (get (st_tab s) m n <= get T m n)%Qc)) /\
  (valid_schedule 3 5 example_race /\ sc_threads example_race = 2 /\ feasible 3 5 example_tab /\
   exists s s', reach 3 5 example_race example_tab s /\ step 3 5 example_race s = Next s' /\
     get (st_tab s) 3 5 = qz 30 /\ get (st_tab s') 3 5 = qz 24).
Proof.
  split.
  - intros m n sc T0 s Hsc Ht Hwf Hf Hr.
    pose proof (reach_inv _ _ _ _ _ Hsc Hwf Hr) as Hi.
    pose proof (reach_feasible _ _ _ _ _ Hsc Ht Hwf Hf Hr) as Hfs.
    split; [intros s' Hst|intros T ni Hst];
      destruct (step_cases m n sc s Hsc Hi)
        as [H|[[H _]|(pc & pr & _ & _ & Hneg & Hmr & [[H _]|(s'' & H & Ht' & _ & _ & _)])]];
      rewrite Hst in H; try discriminate.
    + injection H as <-. rewrite Ht'. apply pivot_objective_nondecreasing; auto. apply Hi.
    + injection H as -> _. apply pivot_objective_nondecreasing; auto. apply Hi.
  - split; [exact example_race_valid|]. split; [reflexivity|]. split; [exact example_tab_feasible|].
    set (s1 := match step 3 5 example_race (init 3 example_race example_tab) with
               | Next s => s | Halt _ => init 3 example_race example_tab end).
    exists s1, (match step 3 5 example_race s1 with Next s => s | Halt _ => s1 end).
    unfold s1. split; [|split; [|split]]; [|decide_concrete..].
    eapply reach_step; [apply reach_init|decide_concrete].
Qed.

Lemma objective_nondecreasing_witness :
  let s1 := match step 3 5 (single_thread 3 5) (init 3 (single_thread 3 5) example_tab) with
            | Next s' => s' | _ => init 3 (single_thread 3 5) example_tab end in
  step 3 5 (single_thread 3 5) (init 3 (single_thread 3 5) example_tab) = Next s1 /\
  (get example_tab 3 5 <= get (st_tab s1) 3 5)%Qc.
Proof.
  intros s1. assert (Hs : step 3 5 (single_thread 3 5) (init 3 (single_thread 3 5) example_tab) = Next s1)
    by decide_concrete.
  split; [exact Hs|].
  exact (proj1 (proj1 objective_nondecreasing 3 5 (single_thread 3 5) example_tab _
    (single_thread_valid 3 5) eq_refl example_tab_wf example_tab_feasible (reach_init _ _ _ _)) s1 Hs).
Defined.

(** C2: on the spec's example (maximize [3x1 + 5x2] under [x1 <= 4],
    [2x2 <= 12], [3x1 + 2x2 <= 18]) every one-thread execution stops as
    optimal after two pivots, with objective value 36.  With two threads
    the race of line 341 can make the run stop after three pivots with the
    value 42, which no feasible point reaches. *)
Theorem example_optimal_after_two_pivots :
  (forall sc fuel, valid_schedule 3 5 sc -> sc_threads sc = 1 -> 2 <= fuel ->
     exists T, run 3 5 sc fuel example_tab = Optimal T 2 /\ get T 3 5 = qz 36) /\
  (valid_schedule 3 5 example_race /\ sc_threads example_race = 2 /\
   forall fuel, 3 <= fuel ->
     exists T, run 3 5 example_race fuel example_tab = Optimal T 3 /\ get T 3 5 = qz 42).
Proof.
  split.
  - intros sc fuel Hsc Ht Hf. destruct fuel as [|[|f]]; [lia|lia|].
    assert (Hinit : init 3 sc example_tab =
                    MkState example_tab (MkMax 0 (Z.of_nat 1)) Compare_Min_default 0).
    { unfold init.
      pose proof (initial_scan_spec 3 5 (sc_init sc) example_tab (proj1 Hsc)) as Hs.
      apply (max_spec_unique _ _ _ _ 1) in Hs; [|decide_concrete..|forall_concrete].
      by rewrite Hs. }
    pose proof (init_inv 3 5 sc example_tab Hsc example_tab_wf) as Hi0. rewrite Hinit in Hi0.
    pose proof (step_determined 3 5 sc _ 1 1 Hsc Hi0 eq_refl ltac:(lia)
      ltac:(intros i _; by rewrite elim_cols_one_thread)
      ltac:(decide_concrete) ltac:(decide_concrete) ltac:(forall_concrete)) as [_ H1].
    rewrite run_first, Hinit.
    rewrite (H1 0 ltac:(decide_concrete) eq_refl ltac:(decide_concrete) ltac:(forall_concrete)).
    cbn [st_tab st_ni]. rewrite loop_S.
    assert (Hi1 : inv 3 5 (MkState (pivot_tab 3 5 example_tab 1 1 (fun _ => 1))
                             (MkMax 0 (Z.of_nat 0)) (MkMin HUGE_VAL (Z.of_nat 1)) 1)).
    { split; [apply pivot_tab_wf, example_tab_wf|]. split; [done|]. split; [done|].
      right. exists 0. split; [lia|]. split; [done|]. decide_concrete. }
    pose proof (step_determined 3 5 sc _ 0 2 Hsc Hi1 eq_refl ltac:(lia)
      ltac:(intros i _; by rewrite elim_cols_one_thread)
      ltac:(decide_concrete) ltac:(decide_concrete) ltac:(forall_concrete)) as [H2 _].
    rewrite (H2 ltac:(decide_concrete)).
    eexists. split; [reflexivity|]. decide_concrete.
  - split; [exact example_race_valid|]. split; [reflexivity|].
    intros fuel Hf. replace fuel with (2 + S (fuel - 3)) by lia.
    set (s2 := match steps 3 5 example_race 2 (init 3 example_race example_tab) with
               | Next s => s | Halt _ => init 3 example_race example_tab end).
    assert (H2 : steps 3 5 example_race 2 (init 3 example_race example_tab) = Next s2)
      by (unfold s2; decide_concrete).
    unfold run. rewrite (loop_steps _ _ _ _ _ _ _ H2), loop_S.
    assert (H3 : step 3 5 example_race s2 =
                 Halt (Optimal (match step 3 5 example_race s2 with
                                | Halt (Optimal T _) => T | _ => example_tab end) 3))
      by (unfold s2; decide_concrete).
    rewrite H3. eexists. split; [reflexivity|]. unfold s2. decide_concrete.
Qed.

Lemma example_optimal_after_two_pivots_witness :
  exists T, run 3 5 (single_thread 3 5) 2 example_tab = Optimal T 2 /\ get T 3 5 = qz 36.
Proof.
  apply (proj1 example_optimal_after_two_pivots (single_thread 3 5) 2);
    [apply single_thread_valid|reflexivity|lia].
Defined.

(** C3: on the one-constraint tableau [[-1; 0; 5]], objective [[-1; 0; 0]],
    column 0 has no positive constraint entry.  With one thread the run
    stops as unbounded ([exit(1)]); with several threads the single nowait
    of line 319 lets the other threads read [tableau[min.index][max.index]]
    with [min.index == -1] at line 329, outside the matrix. *)
Theorem unbounded_exit_depends_on_threads sc fuel :
  valid_schedule 1 2 sc ->
  run 1 2 sc (S fuel) unb_tab = if 1 <? sc_threads sc then OutOfBounds else Unbounded.
Proof.
  intros Hsc. pose proof Hsc as (Hti & Hrat & _ & _).
  assert (Hinit : init 1 sc unb_tab = MkState unb_tab (MkMax 0 (Z.of_nat 0)) Compare_Min_default 0).
  { unfold init. pose proof (initial_scan_spec 1 2 (sc_init sc) unb_tab Hti) as Hs.
    apply (max_spec_unique _ _ _ _ 0) in Hs; [|decide_concrete..|forall_concrete].
    by rewrite Hs. }
  rewrite run_first, Hinit. unfold step. cbn [st_tab st_max st_min st_ni max_index].
  rewrite ratio_test_in_range by lia.
  pose proof (ratio_reduce_spec 1 2 (sc_ratio sc 0) unb_tab 0 Compare_Min_default (Hrat 0) eq_refl)
    as [Hc Hmin].
  pose proof (ratio_sentinel 2 (sc_ratio sc 0) unb_tab 0) as Hsent.
  destruct (reduce _ _ _ _) as [c mn'] eqn:E. cbn [fst snd] in Hc, Hmin, Hsent.
  assert (Hc1 : c = 1) by (rewrite Hc; decide_concrete). subst c.
  destruct Hmin as [[Hv _]|(i & Hi & Hel & _)].
  - destruct mn' as [v idx]. cbn [min_val min_index] in Hv, Hsent. rewrite (Hsent Hv).
    cbn beta iota zeta. destruct (1 <? sc_threads sc); reflexivity.
  - exfalso. apply elem_of_seq_0 in Hi. assert (i = 0) as -> by lia.
    revert Hel. apply (bool_decide_eq_false_1 (0 < get unb_tab 0 0)%Qc). vm_compute. reflexivity.
Qed.

Lemma unbounded_exit_depends_on_threads_witness :
  run 1 2 (two_threads 1 2) 1 unb_tab = OutOfBounds.
Proof. exact (unbounded_exit_depends_on_threads (two_threads 1 2) 0 (two_threads_valid 1 2)). Defined.

(** C7 (amended): with one thread, a run from a tableau whose objective row
    has a negative entry only ever stops as optimal or unbounded; but it
    need not stop: on Beale's degenerate tableau, with a feasible starting
    basis, the loop, which has no anti-cycling rule, pivots forever. *)
Theorem one_thread_outcomes_and_cycling m n T0 fuel :
  wf m n T0 -> (exists j, j <= n /\ (get T0 m j < 0)%Qc) ->
  (run m n (single_thread m n) fuel T0 = OutOfFuel \/
   run m n (single_thread m n) fuel T0 = Unbounded \/
   exists T ni, run m n (single_thread m n) fuel T0 = Optimal T ni) /\
  (feasible 3 7 beale /\ forall fuel', run 3 7 (single_thread 3 7) fuel' beale = OutOfFuel).
Proof.
  intros Hwf Hneg. split; [|split; [exact beale_feasible|exact beale_cycles]].
  pose proof (single_thread_valid m n) as Hsc.
  destruct (run_halt m n (single_thread m n) fuel T0) as [H|(s & Hr & Hst)]; [by left|].
  pose proof (reach_inv _ _ _ _ _ Hsc Hwf Hr) as Hi.
  pose proof (reach_entering _ _ _ _ _ Hsc Hwf Hneg Hr) as Hidx.
  destruct (step_cases m n _ s Hsc Hi)
    as [H|[[H [Hm|Ht]]|(pc & pr & _ & _ & _ & _ & [[H _]|(s' & H & _)])]];
    rewrite Hst in H; try discriminate.
  - injection H as ->. by right; left.
  - done.
  - cbn [sc_threads single_thread] in Ht. lia.
  - injection H as ->. right; right. by do 2 eexists.
Qed.

Lemma one_thread_outcomes_and_cycling_witness :
  run 3 5 (single_thread 3 5) 1 example_tab = OutOfFuel \/
  run 3 5 (single_thread 3 5) 1 example_tab = Unbounded \/
  exists T ni, run 3 5 (single_thread 3 5) 1 example_tab = Optimal T ni.
Proof.
  refine (proj1 (one_thread_outcomes_and_cycling 3 5 example_tab 1 example_tab_wf _)).
  exists 0. split; [lia|decide_concrete].
Defined.

(** C7 fails: Beale's tableau is well formed and feasible, and the
    one-thread run never stops, whatever the fuel. *)
Theorem pivot_loop_may_not_terminate :
  wf 3 7 beale /\ feasible 3 7 beale /\ valid_schedule 3 7 (single_thread 3 7) /\
  forall fuel, run 3 7 (single_thread 3 7) fuel beale = OutOfFuel.
Proof.
  split; [exact beale_wf|]. split; [exact beale_feasible|].
  split; [apply single_thread_valid|exact beale_cycles].
Qed.

(** C8: the initial scan (lines 295-299, [j <= colNumb]) takes the
    right-hand-side column into account and the fused scan (line 352,
    [j < colNumb]) does not: on the objective row [[-1; 0; -5]] the initial
    scan picks column 2, the right-hand side, and the fused scan column 0,
    whatever the schedule. *)
Theorem scans_disagree_on_rhs sc :
  valid_schedule 1 2 sc ->
  max_index (st_max (init 1 sc rhs_tab)) = 2%Z /\
  max_index (fused_scan 1 2 (sc_scan sc 0) rhs_tab Compare_Max_default).2 = 0%Z.
Proof.
  intros (Hti & _ & Hsc & _). split.
  - unfold init. cbn [st_max max_index].
    pose proof (initial_scan_spec 1 2 (sc_init sc) rhs_tab Hti) as Hs.
    apply (max_spec_unique _ _ _ _ 2) in Hs; [|decide_concrete..|forall_concrete].
    by rewrite Hs.
  - pose proof (fused_scan_spec 1 2 (sc_scan sc 0) rhs_tab Compare_Max_default (Hsc 0) eq_refl)
      as [_ Hs].
    apply (max_spec_unique _ _ _ _ 0) in Hs; [|decide_concrete..|forall_concrete].
    by rewrite Hs.
Qed.

Lemma scans_disagree_on_rhs_witness :
  max_index (st_max (init 1 (single_thread 1 2) rhs_tab)) = 2%Z /\
  max_index (fused_scan 1 2 (sc_scan (single_thread 1 2) 0) rhs_tab Compare_Max_default).2 = 0%Z.
Proof. exact (scans_disagree_on_rhs (single_thread 1 2) (single_thread_valid 1 2)). Defined.

(** C9: the combiners [maximo] and [minimo] are associative, and the value
    of a combination does not depend on the order of the arguments. *)
Theorem combiners_assoc_comm_val :
  (forall a b c, maximo (maximo a b) c = maximo a (maximo b c)) /\
  (forall a b c, minimo (minimo a b) c = minimo a (minimo b c)) /\
  (forall a b, max_val (maximo a b) = max_val (maximo b a)) /\
  (forall a b, min_val (minimo a b) = min_val (minimo b a)).
Proof.
  split; [|split; [|split]].
  - intros [x i] [y j] [z k]. unfold maximo. cbn [max_val].
    repeat (case_bool_decide; cbn [max_val] in * ); try done; exfalso; qc_order.
  - intros [[x|] i] [[y|] j] [[z|] k]; unfold minimo; cbn [min_val ext_lt];
      repeat (case_bool_decide; cbn [min_val ext_lt] in * ); try done; exfalso; qc_order.
  - intros [x i] [y j]. unfold maximo. cbn [max_val].
    repeat (case_bool_decide; cbn [max_val] in * ); try done.
    + exfalso; qc_order.
    + by apply Qc_total_eq.
  - intros [[x|] i] [[y|] j]; unfold minimo; cbn [min_val ext_lt];
      repeat (case_bool_decide; cbn [min_val ext_lt] in * ); try done.
    + exfalso; qc_order.
    + f_equal. by apply Qc_total_eq.
Qed.

(** C10: the do-while runs the ratio test before any check of the entering
    column.  With at least one constraint, the column the initial scan
    leaves is inside the row exactly when the objective row has a negative
    entry; when it has none, the index is still the sentinel [-1] and the
    first ratio test reads [tableau[i][-1]], outside the matrix. *)
Theorem first_ratio_test_needs_negative_entry m n sc T fuel :
  valid_schedule m n sc -> 0 < m ->
  (col_in_range n (max_index (st_max (init m sc T))) = true <->
   exists j, j <= n /\ (get T m j < 0)%Qc) /\
  ((forall j, j <= n -> (0 <= get T m j)%Qc) ->
   max_index (st_max (init m sc T)) = (-1)%Z /\ run m n sc (S fuel) T = OutOfBounds).
Proof.
  intros (Hti & _) Hm.
  assert (Hinit : max_index (st_max (init m sc T)) = max_index (initial_scan m (sc_init sc) T))
    by reflexivity.
  destruct (initial_scan_spec m n (sc_init sc) T Hti) as [[Hv Hall]|(j & Hj & _ & Hpos & Heq & _)].
  - pose proof (initial_scan_sentinel m (sc_init sc) T Hv) as Hidx. rewrite <-Hinit in Hidx.
    split.
    + rewrite Hidx. split; [done|]. intros (j & Hj & Hneg).
      apply Qclt_0_opp in Hneg. exfalso.
      exact (Qcle_not_lt _ _ (Hall j ltac:(apply elem_of_seq_0; lia) eq_refl) Hneg).
    + intros _. split; [done|]. rewrite run_first. unfold step. rewrite Hidx. unfold ratio_test.
      rewrite (proj2 (Nat.eqb_neq m 0)) by lia. reflexivity.
  - rewrite Hinit, Heq. cbn [max_index]. apply elem_of_seq_0 in Hj. apply Qclt_0_opp in Hpos.
    split.
    + split; [intros _; exists j; split; [lia|done]|intros _; apply col_in_range_of_nat; lia].
    + intros Hnn. exfalso. exact (Qcle_not_lt _ _ (Hnn j ltac:(lia)) Hpos).
Qed.

Lemma first_ratio_test_needs_negative_entry_witness :
  max_index (st_max (init 3 (single_thread 3 5) example_final)) = (-1)%Z /\
  run 3 5 (single_thread 3 5) 1 example_final = OutOfBounds.
Proof.
  apply (proj2 (first_ratio_test_needs_negative_entry 3 5 (single_thread 3 5) example_final 0
    (single_thread_valid 3 5) ltac:(lia))).
  intros j Hj. do 6 (destruct j as [|j]; [decide_concrete|]). lia.
Defined.

(** * Further properties of the program *)

(** ** [atoi], [strtok] and [get_dimension] *)

Lemma span_app p a b :
  Forall (fun c => p c = true) a ->
  (match b with [] => True | c :: _ => p c = false end) ->
  span p (a ++ b) = (a, b).
Proof.
  intros Ha Hb. induction Ha as [|c a Hc _ IH]; cbn [app span].
  - destruct b as [|c b]; [done|]. cbn [span]. by rewrite Hb.
  - by rewrite Hc, IH.
Qed.

Lemma skip_while_app p a b :
  Forall (fun c => p c = true) a -> skip_while p (a ++ b) = skip_while p b.
Proof.
  unfold skip_while. intros Ha. induction Ha as [|c a Hc _ IH]; [done|].
  cbn [app span]. rewrite Hc. destruct (span p (a ++ b)) as [x y] eqn:E.
  by rewrite <-IH.
Qed.

Lemma skip_while_stop p c b : p c = false -> skip_while p (c :: b) = c :: b.
Proof. intros H. unfold skip_while. cbn [span]. by rewrite H. Qed.

Lemma skip_while_all p a : Forall (fun c => p c = true) a -> skip_while p a = [].
Proof. intros H. rewrite <-(app_nil_r a), skip_while_app by done. done. Qed.

Lemma isdigit_facts c : isdigit c = true ->
  isspace c = false /\ is_delim c = false /\
  Ascii.eqb c "-"%char = false /\ Ascii.eqb c "+"%char = false /\ (0 <= digit_value c <= 9)%Z.
Proof.
  intros H. split; [|split; [|split; [|split]]].
  - unfold isdigit, isspace in *. apply andb_true_iff in H as [H1 H2].
    apply Nat.leb_le in H1, H2. apply orb_false_iff. split; [apply Nat.eqb_neq; lia|].
    apply andb_false_iff. right. apply Nat.leb_gt. lia.
  - unfold is_delim. destruct (Ascii.eqb_spec c "x"%char) as [->|]; [by vm_compute in H|].
    destruct (Ascii.eqb_spec c "/"%char) as [->|]; [by vm_compute in H|].
    destruct (Ascii.eqb_spec c "_"%char) as [->|]; [by vm_compute in H|done].
  - destruct (Ascii.eqb_spec c "-"%char) as [->|]; [by vm_compute in H|done].
  - destruct (Ascii.eqb_spec c "+"%char) as [->|]; [by vm_compute in H|done].
  - unfold isdigit, digit_value in *. apply andb_true_iff in H as [H1 H2].
    apply Nat.leb_le in H1, H2. lia.
Qed.

Lemma digits_value_fold_nonneg ds acc :
  Forall (fun c => isdigit c = true) ds -> (0 <= acc)%Z ->
  (0 <= fold_left (fun acc c => acc * 10 + digit_value c)%Z ds acc)%Z.
Proof.
  intros Hd. revert acc. induction Hd as [|c ds Hc _ IH]; intros acc Ha; [done|].
  cbn [fold_left]. apply IH. destruct (isdigit_facts c Hc) as (_ & _ & _ & _ & Hv). lia.
Qed.

Lemma digits_value_nonneg ds :
  Forall (fun c => isdigit c = true) ds -> (0 <= digits_value ds)%Z.
Proof. intros Hd. by apply digits_value_fold_nonneg. Qed.

Lemma atoi_digits ds rest :
  ds <> [] -> Forall (fun c => isdigit c = true) ds ->
  (match rest with [] => True | c :: _ => isdigit c = false end) ->
  (digits_value ds <= INT_MAX)%Z -> atoi (ds ++ rest) = digits_value ds.
Proof.
  intros Hne Hd Hr Hv. pose proof (digits_value_nonneg ds Hd) as H0.
  destruct ds as [|c ds']; [done|].
  destruct (isdigit_facts c (Forall_inv Hd)) as (Hs & _ & Hm & Hp & _).
  unfold atoi, strtol10. change ((c :: ds') ++ rest) with (c :: ds' ++ rest).
  rewrite skip_while_stop by done. cbn [read_sign]. rewrite Hm, Hp.
  change (c :: ds' ++ rest) with ((c :: ds') ++ rest).
  rewrite span_app by done. cbn [fst].
  unfold wrap32, LONG_MIN, LONG_MAX, INT_MAX in *.
  rewrite Z.min_r, Z.max_r by lia. rewrite Z.mod_small by lia. lia.
Qed.

Lemma atoi_digits_nil ds :
  ds <> [] -> Forall (fun c => isdigit c = true) ds ->
  (digits_value ds <= INT_MAX)%Z -> atoi ds = digits_value ds.
Proof.
  intros Hne Hd Hv. pose proof (atoi_digits ds [] Hne Hd I Hv) as H. by rewrite app_nil_r in H.
Qed.

Lemma atoi_no_digit c s :
  isspace c = false -> isdigit c = false ->
  Ascii.eqb c "-"%char = false -> Ascii.eqb c "+"%char = false -> atoi (c :: s) = 0%Z.
Proof.
  intros Hs Hd Hm Hp. unfold atoi, strtol10. rewrite skip_while_stop by done.
  cbn [read_sign]. rewrite Hm, Hp. cbn [span]. by rewrite Hd.
Qed.

Lemma strtok_next_token tok rest :
  tok <> [] -> Forall (fun c => is_delim c = false) tok ->
  (match rest with [] => True | c :: _ => is_delim c = true end) ->
  strtok_next (tok ++ rest) = Some (tok, drop 1 rest).
Proof.
  intros Hne Ht Hr. destruct tok as [|c t]; [done|].
  unfold strtok_next. change ((c :: t) ++ rest) with (c :: t ++ rest).
  rewrite skip_while_stop by exact (Forall_inv Ht). cbv beta iota.
  change (c :: t ++ rest) with ((c :: t) ++ rest).
  rewrite span_app; [done| |].
  - eapply Forall_impl; [exact Ht|]. intros x Hx. by rewrite Hx.
  - destruct rest; [done|]. by rewrite Hr.
Qed.

Lemma digits_not_delim ds :
  Forall (fun c => isdigit c = true) ds -> Forall (fun c => is_delim c = false) ds.
Proof. intros H. eapply Forall_impl; [exact H|]. intros c Hc. apply (isdigit_facts c Hc). Qed.

Lemma fuel_at_least (l : list ascii) k : k <= length l -> exists f, S (length l) = S (k + f).
Proof. intros H. exists (length l - k). lia. Qed.

Lemma dimension_loop_some f i d tok rest :
  dimension_loop (S f) i d (Some (tok, rest)) =
  dimension_loop f (i + 1)%Z
    (let d := if (i =? 1)%Z then (atoi tok, d.2) else d in
     if (i =? 2)%Z then (d.1, atoi tok) else d)
    (strtok_next rest).
Proof. reflexivity. Qed.

Lemma dimension_loop_none f i d : dimension_loop f i d None = d.
Proof. by destruct f. Qed.

(** X2: on a file name [dir/AxB...] with one directory, decimal numbers [A] and [B] and a suffix without delimiters, [get_dimension] sets [nL = A + 1] and [nC = A + B + 1]. *)
Theorem get_dimension_one_directory dir A B rest :
  dir <> [] -> Forall (fun c => is_delim c = false) dir ->
  A <> [] -> Forall (fun c => isdigit c = true) A ->
  B <> [] -> Forall (fun c => isdigit c = true) B ->
  Forall (fun c => is_delim c = false) rest ->
  (match rest with [] => True | c :: _ => isdigit c = false end) ->
  (digits_value A + digits_value B < INT_MAX)%Z ->
  get_dimension (dir ++ "/"%char :: A ++ "x"%char :: B ++ rest) =
    (digits_value A + 1, digits_value A + digits_value B + 1)%Z.
Proof.
  intros Hd Hdd HA HAd HB HBd Hrd Hr Hv.
  pose proof (digits_value_nonneg A HAd). pose proof (digits_value_nonneg B HBd).
  unfold get_dimension.
  destruct (fuel_at_least (dir ++ "/"%char :: A ++ "x"%char :: B ++ rest) 3) as [f ->].
  { destruct dir; [done|]. destruct A; [done|]. cbn [length app]. rewrite length_app. cbn. lia. }
  change (S (3 + f)) with (S (S (S (S f)))).
  rewrite strtok_next_token by done. rewrite dimension_loop_some. cbn [drop]; rewrite ?drop_0.
  rewrite strtok_next_token by (done || by apply digits_not_delim). rewrite dimension_loop_some. cbn [drop]; rewrite ?drop_0.
  rewrite <-(app_nil_r (B ++ rest)).
  rewrite strtok_next_token; [|by destruct B|by apply Forall_app; split; [apply digits_not_delim|]|done].
  rewrite dimension_loop_some. cbn [drop]; rewrite ?drop_0. rewrite dimension_loop_none.
  cbn -[atoi]. rewrite (atoi_digits_nil A), (atoi_digits B rest) by (done || lia).
  f_equal; lia.
Qed.

(** X3: on a file name [AxB...] without a directory, the token [A] is skipped: [nL] and [nC] are both [B + 1]. *)
Theorem get_dimension_no_directory A B rest :
  A <> [] -> Forall (fun c => isdigit c = true) A ->
  B <> [] -> Forall (fun c => isdigit c = true) B ->
  Forall (fun c => is_delim c = false) rest ->
  (match rest with [] => True | c :: _ => isdigit c = false end) ->
  (digits_value B < INT_MAX)%Z ->
  get_dimension (A ++ "x"%char :: B ++ rest) = (digits_value B + 1, digits_value B + 1)%Z.
Proof.
  intros HA HAd HB HBd Hrd Hr Hv. pose proof (digits_value_nonneg B HBd).
  unfold get_dimension.
  destruct (fuel_at_least (A ++ "x"%char :: B ++ rest) 2) as [f ->].
  { destruct A; [done|]. destruct B; [done|]. cbn [length app]. rewrite length_app. cbn. lia. }
  change (S (2 + f)) with (S (S (S f))).
  rewrite strtok_next_token by (done || by apply digits_not_delim). rewrite dimension_loop_some. cbn [drop]; rewrite ?drop_0.
  rewrite <-(app_nil_r (B ++ rest)).
  rewrite strtok_next_token; [|by destruct B|by apply Forall_app; split; [apply digits_not_delim|]|done].
  rewrite dimension_loop_some. cbn [drop]; rewrite ?drop_0. rewrite dimension_loop_none.
  cbn -[atoi]. rewrite (atoi_digits B rest) by (done || lia). simpl. f_equal; lia.
Qed.

(** X4: on a file name [d1/d2/AxB] with two directories, where [d2] starts with a character that is no digit, sign or blank, the second directory is read as the number of constraints: [nL = 1] and [nC = A + 1]. *)
Theorem get_dimension_two_directories d1 c d2 A B :
  d1 <> [] -> Forall (fun c => is_delim c = false) d1 ->
  Forall (fun c => is_delim c = false) (c :: d2) ->
  isspace c = false -> isdigit c = false ->
  Ascii.eqb c "-"%char = false -> Ascii.eqb c "+"%char = false ->
  A <> [] -> Forall (fun c => isdigit c = true) A ->
  B <> [] -> Forall (fun c => is_delim c = false) B ->
  (digits_value A < INT_MAX)%Z ->
  get_dimension (d1 ++ "/"%char :: (c :: d2) ++ "/"%char :: A ++ "x"%char :: B) =
    (1, digits_value A + 1)%Z.
Proof.
  intros Hd1 Hd1d Hd2d Hs Hd Hm Hp HA HAd HB HBd Hv.
  pose proof (digits_value_nonneg A HAd).
  unfold get_dimension.
  destruct (fuel_at_least (d1 ++ "/"%char :: (c :: d2) ++ "/"%char :: A ++ "x"%char :: B) 4)
    as [f ->].
  { destruct d1; [done|]. cbn [length app]. rewrite length_app. cbn [length]. rewrite !length_app. cbn [length]. lia. }
  change (S (4 + f)) with (S (S (S (S (S f))))).
  rewrite strtok_next_token by done. rewrite dimension_loop_some. cbn [drop]; rewrite ?drop_0.
  rewrite strtok_next_token by done. rewrite dimension_loop_some. cbn [drop]; rewrite ?drop_0.
  rewrite strtok_next_token by (done || by apply digits_not_delim).
  rewrite dimension_loop_some. cbn [drop]; rewrite ?drop_0.
  rewrite <-(app_nil_r B).
  rewrite strtok_next_token by done.
  rewrite dimension_loop_some. cbn [drop]; rewrite ?drop_0. rewrite dimension_loop_none.
  cbn -[atoi]. rewrite (atoi_no_digit c d2), (atoi_digits_nil A) by (done || lia).
  simpl. f_equal; lia.
Qed.


(** ** [from_string<int>] *)

Lemma narrow_int v :
  (if (v <? INT_MIN)%Z then (false, INT_MIN)
   else if (INT_MAX <? v)%Z then (false, INT_MAX) else (true, v)) =
  ((INT_MIN <=? v) && (v <=? INT_MAX), Z.max INT_MIN (Z.min INT_MAX v))%Z.
Proof.
  unfold INT_MIN, INT_MAX.
  destruct (Z.ltb_spec v (-2147483648)), (Z.ltb_spec 2147483647 v),
    (Z.leb_spec (-2147483648) v), (Z.leb_spec v 2147483647); cbn [andb];
    try lia; f_equal; lia.
Qed.

(** X5: [from_string<int>] on blanks, an optional sign and decimal digits returns true with the value when it fits an [int]; otherwise it returns false with the value clamped to [INT_MIN] or [INT_MAX]. *)
Theorem from_string_int_number t ws sg neg ds rest :
  Forall (fun c => isspace c = true) ws ->
  (sg = [] /\ neg = false \/ sg = ["-"%char] /\ neg = true \/ sg = ["+"%char] /\ neg = false) ->
  ds <> [] -> Forall (fun c => isdigit c = true) ds ->
  (match rest with [] => True | c :: _ => isdigit c = false end) ->
  from_string_int t (ws ++ sg ++ ds ++ rest) =
    (let v := if neg then (- digits_value ds)%Z else digits_value ds in
     ((INT_MIN <=? v) && (v <=? INT_MAX), Z.max INT_MIN (Z.min INT_MAX v)))%Z.
Proof.
  intros Hws Hsg Hne Hd Hr. destruct ds as [|c ds']; [done|].
  destruct (isdigit_facts c (Forall_inv Hd)) as (Hs & _ & Hm & Hp & _).
  unfold from_string_int. rewrite skip_while_app by done.
  assert (Hspan : span isdigit (c :: ds' ++ rest) = (c :: ds', rest)).
  { change (c :: ds' ++ rest) with ((c :: ds') ++ rest). by apply span_app. }
  destruct Hsg as [[-> ->]|[[-> ->]|[-> ->]]]; cbn [app];
    rewrite skip_while_stop by done; cbv beta iota; unfold num_get_int, read_sign.
  - rewrite Hm, Hp. cbv beta iota. rewrite Hspan. cbn [fst]. apply narrow_int.
  - assert (E : Ascii.eqb "-" "-" = true) by reflexivity. rewrite E. cbv beta iota.
    rewrite Hspan. cbn [fst]. apply narrow_int.
  - assert (E : Ascii.eqb "+" "-" = false) by reflexivity. rewrite E.
    assert (E' : Ascii.eqb "+" "+" = true) by reflexivity. rewrite E'. cbv beta iota.
    rewrite Hspan. cbn [fst]. apply narrow_int.
Qed.

(** X6: [from_string<int>] returns false when there is no number: on a blank string the target keeps its value, and on a string whose first non-blank character is no digit (nor a sign followed by a digit) the target is set to 0. *)
Theorem from_string_int_no_number t s :
  (Forall (fun c => isspace c = true) s -> from_string_int t s = (false, t)) /\
  (forall ws c s', s = ws ++ c :: s' -> Forall (fun c => isspace c = true) ws ->
     isspace c = false -> isdigit c = false ->
     ((Ascii.eqb c "-"%char || Ascii.eqb c "+"%char) = true ->
        match s' with [] => True | d :: _ => isdigit d = false end) ->
     from_string_int t s = (false, 0%Z)).
Proof.
  split.
  - intros Hs. unfold from_string_int. by rewrite skip_while_all.
  - intros ws c s' -> Hws Hs Hd Hsg. unfold from_string_int.
    rewrite skip_while_app, skip_while_stop by done. cbv beta iota.
    unfold num_get_int. cbn [read_sign].
    destruct (Ascii.eqb c "-"%char) eqn:Em; [|destruct (Ascii.eqb c "+"%char) eqn:Ep].
    + specialize (Hsg eq_refl). destruct s' as [|d s'']; [done|]. cbn [span]. by rewrite Hsg.
    + specialize (Hsg (orb_true_r _)). destruct s' as [|d s'']; [done|]. cbn [span]. by rewrite Hsg.
    + cbn [span]. by rewrite Hd.
Qed.

(** ** [string_to_vector] and the reading loop of [read_data] *)

Section Words.
  Context {T : Type} (num_get : list ascii -> option T).

Lemma words_head seps ws trail :
    length seps = length ws ->
    Forall (fun sp => Forall (fun c => isspace c = true) sp) seps ->
    Forall (fun sp => sp <> []) seps ->
    Forall (fun c => isspace c = true) trail ->
    match concat (zip_with app seps ws) ++ trail with
    | [] => True | c :: _ => negb (isspace c) = false end.
  Proof.
    intros Hlen Hsp Hne Htr. destruct seps as [|sp seps], ws as [|w ws]; try done.
    - destruct trail as [|c tr]; [done|]. cbn. by rewrite (Forall_inv Htr).
    - destruct sp as [|c sp]; [by pose proof (Forall_inv Hne)|].
      cbn [zip_with concat app]. by rewrite (Forall_inv (Forall_inv Hsp)).
  Qed.


Lemma string_to_vector_loop_words seps ws trail fuel vec :
    length seps = length ws ->
    Forall (fun sp => Forall (fun c => isspace c = true) sp) seps ->
    Forall (fun sp => sp <> []) (tail seps) ->
    Forall (fun w => w <> [] /\ Forall (fun c => isspace c = false) w) ws ->
    Forall (fun c => isspace c = true) trail ->
    length ws < fuel ->
    string_to_vector_loop num_get fuel (concat (zip_with app seps ws) ++ trail) vec =
    vec ++ omap num_get ws.
  Proof.
    revert seps fuel vec. induction ws as [|w ws IH];
      intros seps fuel vec Hlen Hsp Htl Hw Htr Hf; (destruct fuel as [|f]; [lia|]).
    - destruct seps; [|done]. cbn [string_to_vector_loop zip_with concat app].
      unfold read_word. rewrite skip_while_all by done. by rewrite app_nil_r.
    - destruct seps as [|sp seps]; [done|]. cbn in Hlen.
      destruct (Forall_inv Hw) as [Hne Hwn]. destruct w as [|c w]; [done|].
      cbn [zip_with concat]. rewrite <-!app_assoc.
      set (X := concat (zip_with app seps ws) ++ trail).
      cbn [string_to_vector_loop]. unfold read_word.
      rewrite skip_while_app by exact (Forall_inv Hsp).
      cbn [app]. rewrite skip_while_stop by exact (Forall_inv Hwn). cbv beta iota.
      change (c :: w ++ X) with ((c :: w) ++ X).
      rewrite span_app.
      2:{ eapply Forall_impl; [exact Hwn|]. intros x Hx. by rewrite Hx. }
      2:{ unfold X. apply words_head; [cbn in Hlen; lia|exact (Forall_inv_tail Hsp)|exact Htl|exact Htr]. }
      cbv beta iota zeta.
      unfold from_string. rewrite skip_while_stop by exact (Forall_inv Hwn). cbv beta iota.
      rewrite (IH seps f); [|cbn in Hlen; lia|exact (Forall_inv_tail Hsp)| |exact (Forall_inv_tail Hw)|exact Htr|cbn in Hf; lia].
      + cbn [omap list_omap]. destruct (num_get (c :: w)); [|done]. by rewrite <-app_assoc.
      + destruct seps; [constructor|]. exact (Forall_inv_tail Htl).
  Qed.

Lemma length_words seps ws :
    length seps = length ws ->
    Forall (fun w => w <> [] /\ Forall (fun c => isspace c = false) w) ws ->
    length ws <= length (concat (zip_with app seps ws)).
  Proof.
    revert seps. induction ws as [|w ws IH]; intros seps Hlen Hw; [cbn; lia|].
    destruct seps as [|sp seps]; [done|]. cbn in Hlen.
    destruct (Forall_inv Hw) as [Hne _]. cbn [zip_with concat].
    rewrite !length_app. specialize (IH seps ltac:(lia) (Forall_inv_tail Hw)).
    destruct w; [done|]. cbn [length]. lia.
  Qed.

(** X7: [string_to_vector] splits its argument at blanks and keeps, in order, the values of the words [from_string] reads, dropping the words it fails on. *)
Theorem string_to_vector_words seps ws trail :
    length seps = length ws ->
    Forall (fun sp => Forall (fun c => isspace c = true) sp) seps ->
    Forall (fun sp => sp <> []) (tail seps) ->
    Forall (fun w => w <> [] /\ Forall (fun c => isspace c = false) w) ws ->
    Forall (fun c => isspace c = true) trail ->
    string_to_vector num_get (concat (zip_with app seps ws) ++ trail) = omap num_get ws.
  Proof.
    intros. unfold string_to_vector.
    rewrite string_to_vector_loop_words; try done.
    pose proof (length_words seps ws ltac:(done) ltac:(done)). rewrite length_app. lia.
  Qed.

Lemma getline_line l r :
    Forall (fun c => Ascii.eqb c "010"%char = false) l -> getline (l ++ "010"%char :: r) = Some (l, r).
  Proof.
    intros H. induction H as [|c l Hc _ IH]; [done|].
    cbn [app getline]. rewrite Hc, IH. done.
  Qed.

Lemma insert_fresh_row (pre : list (list (option T))) k x E :
    <[length pre := x]> (pre ++ replicate (S k) E) = (pre ++ [x]) ++ replicate k E.
  Proof.
    rewrite insert_app_r_alt by lia. rewrite Nat.sub_diag. cbn. by rewrite <-app_assoc.
  Qed.

Lemma read_loop_lines nL nC ls tl fuel pre :
    Forall (fun l => l <> [] /\ Forall (fun c => Ascii.eqb c "010"%char = false) l) ls ->
    (tl = [] \/ exists r, tl = "010"%char :: r) ->
    length pre <= nL -> length ls < fuel ->
    read_loop num_get nL nC fuel (lines_text ls ++ tl) (length pre)
      (pre ++ replicate (nL - length pre) (replicate nC None)) =
    if decide (length pre + length ls <= nL /\
               Forall (fun l => length (string_to_vector num_get l) <= nC) ls)
    then Some (pre ++ map (fun l => row nC (string_to_vector num_get l)) ls
                   ++ replicate (nL - length pre - length ls) (replicate nC None),
               length pre + length ls)
    else None.
  Proof.
    revert fuel pre. induction ls as [|l ls IH]; intros fuel pre Hls Htl Hpre Hf;
      (destruct fuel as [|f]; [cbn in Hf; lia|]).
    - rewrite decide_True by (split; [cbn; lia|constructor]).
      cbn [lines_text map concat app length]. rewrite Nat.add_0_r, Nat.sub_0_r.
      destruct Htl as [->|[r ->]]; cbn [read_loop getline]; [done|].
      rewrite (proj2 (Ascii.eqb_eq _ _) eq_refl). done.
    - destruct (Forall_inv Hls) as [Hne Hnl].
      change (lines_text (l :: ls)) with ((l ++ ["010"%char]) ++ lines_text ls).
      rewrite <-!app_assoc. cbn [app]. cbn [read_loop].
      rewrite getline_line by done.
      destruct l as [|c l']; [done|]. cbv beta iota zeta.
      set (v := string_to_vector num_get (c :: l')).
      destruct (Nat.leb_spec nL (length pre)).
      { rewrite decide_False by (cbn [length]; lia). done. }
      destruct (Nat.ltb_spec nC (length v)).
      { rewrite decide_False; [done|]. intros [_ Hall]. apply Forall_inv in Hall. fold v in Hall. lia. }
      cbn [orb].
      replace (nL - length pre) with (S (nL - S (length pre))) by lia.
      rewrite lookup_total_app_r, Nat.sub_diag by lia.
      rewrite lookup_total_replicate_2 by lia.
      rewrite insert_fresh_row.
      replace (S (length pre)) with (length (pre ++ [copy_row v (replicate nC None)])) by (rewrite length_app; cbn; lia).
      replace (nL - S (length pre)) with (nL - length (pre ++ [copy_row v (replicate nC None)])) by (rewrite length_app; cbn; lia).
      rewrite IH; [| exact (Forall_inv_tail Hls) | done | rewrite length_app; cbn; lia | cbn in Hf; lia].
      assert (Hrow : copy_row v (replicate nC None) = row nC v).
      { unfold copy_row, row. by rewrite drop_replicate. }
      rewrite Hrow, length_app. cbn [length].
      destruct (decide _) as [[H1 H2]|Hn]; destruct (decide _) as [[H3 H4]|Hn'].
      + f_equal. rewrite <-app_assoc. cbn [app map].
        replace (S (nL - (length pre + 1)) - S (length ls)) with (nL - (length pre + 1) - length ls) by lia. replace (length pre + S (length ls)) with (length pre + 1 + length ls) by lia. done.
      + exfalso. apply Hn'. split; [lia|]. constructor; [fold v; lia|done].
      + exfalso. apply Hn. split; [lia|]. exact (Forall_inv_tail H4).
      + done.
  Qed.

Lemma length_lines_text ls :
    Forall (fun l => l <> []) ls -> 2 * length ls <= length (lines_text ls).
  Proof.
    induction 1 as [|l ls Hl _ IH]; [cbn; lia|].
    change (lines_text (l :: ls)) with ((l ++ ["010"%char]) ++ lines_text ls).
    rewrite !length_app. destruct l; [done|]. cbn [length]. lia.
  Qed.

(** X8: the reading loop of [read_data] stores line [k] of the file into row [k] of the matrix and stops at the end of the file or at the first empty line; it accesses the matrix out of bounds when the file has more than [nL] lines or a line has more than [nC] numbers. *)
Theorem read_lines_text nL nC ls tl :
    Forall (fun l => l <> [] /\ Forall (fun c => Ascii.eqb c "010"%char = false) l) ls ->
    (tl = [] \/ exists r, tl = "010"%char :: r) ->
    read_lines num_get nL nC (lines_text ls ++ tl) =
    if decide (length ls <= nL /\
               Forall (fun l => length (string_to_vector num_get l) <= nC) ls)
    then Some (map (fun l => row nC (string_to_vector num_get l)) ls
                   ++ replicate (nL - length ls) (replicate nC None), length ls)
    else None.
  Proof.
    intros Hls Htl. unfold read_lines.
    assert (Hf : length ls < S (length (lines_text ls ++ tl))).
    { assert (Hn : Forall (fun l => l <> []) ls).
      { eapply Forall_impl; [exact Hls|]. by intros ? []. }
      pose proof (length_lines_text ls Hn). rewrite length_app. lia. }
    pose proof (read_loop_lines nL nC ls tl _ [] Hls Htl ltac:(cbn; lia) Hf) as H.
    cbn [length app] in H. rewrite Nat.sub_0_r in H. exact H.
  Qed.

Lemma getline_last l :
    l <> [] -> Forall (fun c => Ascii.eqb c "010"%char = false) l -> getline l = Some (l, []).
  Proof.
    intros Hne H. induction H as [|c l Hc H IH]; [done|].
    cbn [getline]. rewrite Hc. destruct l as [|c' l']; [done|]. by rewrite IH.
  Qed.

Lemma read_loop_last_line nL nC fuel ls l lin M :
    Forall (fun l => l <> [] /\ Forall (fun c => Ascii.eqb c "010"%char = false) l) ls ->
    l <> [] -> Forall (fun c => Ascii.eqb c "010"%char = false) l ->
    read_loop num_get nL nC fuel (lines_text ls ++ l) lin M =
    read_loop num_get nL nC fuel (lines_text (ls ++ [l])) lin M.
  Proof.
    intros Hls Hne Hl. revert fuel lin M.
    induction Hls as [|l0 ls [Hne0 Hl0] _ IH]; intros fuel lin M;
      (destruct fuel as [|f]; [done|]).
    - cbn [app lines_text map concat]. rewrite app_nil_r. cbn [read_loop].
      rewrite getline_last, getline_line by done. done.
    - change (lines_text (l0 :: ls)) with ((l0 ++ ["010"%char]) ++ lines_text ls).
      change (lines_text ((l0 :: ls) ++ [l])) with ((l0 ++ ["010"%char]) ++ lines_text (ls ++ [l])).
      rewrite <-!app_assoc. cbn [app read_loop].
      rewrite !getline_line by done.
      destruct l0 as [|c l0']; [done|]. cbv beta iota zeta.
      destruct (_ || _); [done|]. apply IH.
  Qed.

(** X9: a last line without a newline is read like a line ended by one. *)
Theorem read_lines_last_line nL nC ls l :
    Forall (fun l => l <> [] /\ Forall (fun c => Ascii.eqb c "010"%char = false) l) ls ->
    l <> [] -> Forall (fun c => Ascii.eqb c "010"%char = false) l ->
    read_lines num_get nL nC (lines_text ls ++ l) =
    if decide (length ls < nL /\
               Forall (fun l => length (string_to_vector num_get l) <= nC) (ls ++ [l]))
    then Some (map (fun l => row nC (string_to_vector num_get l)) (ls ++ [l])
                   ++ replicate (nL - S (length ls)) (replicate nC None), S (length ls))
    else None.
  Proof.
    intros Hls Hne Hl. unfold read_lines. rewrite read_loop_last_line by done.
    assert (Hls' : Forall (fun l => l <> [] /\ Forall (fun c => Ascii.eqb c "010"%char = false) l)
                     (ls ++ [l])) by (apply Forall_app; split; [done|by constructor]).
    assert (Hf : length (ls ++ [l]) < S (length (lines_text ls ++ l))).
    { assert (Hn : Forall (fun l => l <> []) ls).
      { eapply Forall_impl; [exact Hls|]. by intros ? []. }
      pose proof (length_lines_text ls Hn). rewrite !length_app. cbn [length].
      destruct l; [done|]. cbn [length]. lia. }
    pose proof (read_loop_lines nL nC (ls ++ [l]) [] _ [] Hls' (or_introl eq_refl) ltac:(cbn; lia) Hf) as H.
    rewrite app_nil_r in H. cbn [length app] in H. rewrite Nat.sub_0_r in H.
    replace (length (ls ++ [l])) with (S (length ls)) in H by (rewrite length_app; cbn; lia).
    rewrite H. cbn [Nat.add]. destruct (decide (S (length ls) ≤ nL ∧ _)) as [[H1 H2]|Hn]; destruct (decide (length ls < nL ∧ _)) as [[H3 H4]|Hn']; try done.
    - exfalso. apply Hn'. split; [lia|done].
    - exfalso. apply Hn. split; [lia|done].
  Qed.
End Words.


(** ** Timing, allocation and release *)

Lemma long_result_in z : (LONG_MIN <= z <= LONG_MAX)%Z -> long_result z = Some z.
Proof.
  intros H. unfold long_result.
  rewrite (proj2 (Z.leb_le _ _)), (proj2 (Z.leb_le _ _)) by lia. reflexivity.
Qed.

(** X1: for a start and an end time read from [CLOCK_REALTIME] (seconds in
    [0, LONG_MAX], nanoseconds in [0, 10^9)), [My_diff] does not overflow,
    returns a nanosecond field in the same range, and keeps the elapsed
    time: the difference in nanoseconds is the end minus the start. *)
Theorem My_diff_elapsed start end_ :
  (0 <= tv_sec start <= LONG_MAX)%Z -> (0 <= tv_sec end_ <= LONG_MAX)%Z ->
  (0 <= tv_nsec start < 1000000000)%Z -> (0 <= tv_nsec end_ < 1000000000)%Z ->
  exists d, My_diff start end_ = Some d /\
    (0 <= tv_nsec d < 1000000000)%Z /\
    total_ns d = (total_ns end_ - total_ns start)%Z.
Proof.
  intros Hs He Hns Hne. unfold My_diff, total_ns.
  unfold LONG_MAX in Hs, He.
  rewrite (long_result_in (tv_nsec end_ - tv_nsec start)) by (unfold LONG_MIN, LONG_MAX; lia).
  rewrite (long_result_in (tv_sec end_ - tv_sec start)) by (unfold LONG_MIN, LONG_MAX; lia).
  destruct (Z.ltb_spec (tv_nsec end_ - tv_nsec start) 0).
  - rewrite (long_result_in (tv_sec end_ - tv_sec start - 1)) by (unfold LONG_MIN, LONG_MAX; lia).
    rewrite (long_result_in (1000000000 + tv_nsec end_)) by (unfold LONG_MIN, LONG_MAX; lia).
    rewrite (long_result_in (1000000000 + tv_nsec end_ - tv_nsec start))
      by (unfold LONG_MIN, LONG_MAX; lia).
    eexists. split; [reflexivity|]. cbn [tv_sec tv_nsec]. lia.
  - eexists. split; [reflexivity|]. cbn [tv_sec tv_nsec]. lia.
Qed.

Lemma alocate_rows_nonnull tableau i rows :
  (0 < tableau)%Z -> alocate_rows tableau i rows = Some rows.
Proof.
  intros H. revert i. induction rows as [|r rs IH]; intros i; [done|].
  cbn [alocate_rows]. destruct (Z.eqb_spec (tableau + 8 * Z.of_nat i) 0); [lia|].
  by rewrite IH.
Qed.

(** X10: [alocate_matrix] tests the address [tableau + i] instead of the row pointer it has just stored, so a failed row allocation (a null row) is never detected: only a null [tableau] makes it exit. *)
Theorem alocate_matrix_null_rows tableau rows :
  (0 <= tableau)%Z ->
  alocate_matrix tableau rows = if (tableau =? 0)%Z then None else Some (tableau, rows).
Proof.
  intros H. unfold alocate_matrix. destruct (Z.eqb_spec tableau 0); [done|].
  rewrite alocate_rows_nonnull by lia. done.
Qed.

(** X11: [main] calls [delete_matrix] with [constraintNumb = nL - 1] rows, so it frees every row but the last one, and then the array: the last row is never freed. *)
Theorem main_delete_leaks_last_row tableau rows :
  tableau <> 0%Z ->
  main_delete tableau rows (Z.of_nat (length rows)) = removelast rows ++ [tableau] /\
  (forall rs r, rows = rs ++ [r] -> NoDup (tableau :: rows) ->
     r ∉ main_delete tableau rows (Z.of_nat (length rows))).
Proof.
  intros Ht.
  assert (E : main_delete tableau rows (Z.of_nat (length rows)) = removelast rows ++ [tableau]).
  { unfold main_delete, delete_matrix. destruct (Z.eqb_spec tableau 0); [done|].
    f_equal. destruct rows as [|r0 rs0] using rev_ind; [done|].
    rewrite removelast_last, length_app. cbn [length].
    replace (Z.of_nat (length rs0 + 1) - 1)%Z with (Z.of_nat (length rs0)) by lia.
    rewrite Nat2Z.id.
    apply list_eq. intros i. rewrite list_lookup_fmap.
    destruct (decide (i < length rs0)).
    - rewrite lookup_seq_lt by done. cbn [fmap option_fmap option_map].
      rewrite lookup_total_app_l by done.
      by rewrite list_lookup_lookup_total_lt.
    - rewrite lookup_seq_ge by lia. rewrite lookup_ge_None_2 by lia. done. }
  split; [exact E|]. intros rs r -> Hnd. rewrite E, removelast_last.
  apply NoDup_cons in Hnd as [Hnt Hnd].
  apply NoDup_app in Hnd as (_ & Hdis & _).
  rewrite elem_of_app, list_elem_of_singleton. intros [Hin| ->].
  - by apply (Hdis r Hin), list_elem_of_singleton.
  - apply Hnt. set_solver.
Qed.

(** ** The simplex loop *)

Lemma filter_length_full {A} (P : A -> Prop) `{!forall x, Decision (P x)} l :
  length (filter P l) = length l -> forall x, x ∈ l -> P x.
Proof.
  intros Hl x Hx. destruct (decide (P x)) as [|Hn]; [done|].
  pose proof (length_filter_lt P l x Hx Hn). lia.
Qed.

(** Every copy of the loop of line 349, and every combination of copies,
    holds 0 or a positive value at a column [j < colNumb]. *)
Lemma scan_reduce_values m n T t mx :
  max_val mx = 0%Qc ->
  max_val (reduce (0%nat, mx) (scan_leaf m n T) scan_comb t).2 = 0%Qc \/
  exists j, j < n /\ (0 < max_val (reduce (0%nat, mx) (scan_leaf m n T) scan_comb t).2)%Qc /\
    max_index (reduce (0%nat, mx) (scan_leaf m n T) scan_comb t).2 = Z.of_nat j.
Proof.
  intros H0.
  apply (reduce_inv _ _ _ (fun _ (a : nat * Compare_Max) =>
    max_val a.2 = 0%Qc \/ exists j, j < n /\ (0 < max_val a.2)%Qc /\ max_index a.2 = Z.of_nat j)).
  - by left.
  - intros js. unfold scan_leaf.
    apply (fold_left_inv (fun _ (a : nat * Compare_Max) =>
      max_val a.2 = 0%Qc \/ exists j, j < n /\ (0 < max_val a.2)%Qc /\ max_index a.2 = Z.of_nat j)
      _ js []); [|by left].
    intros l [c a] j H. unfold scan_body.
    destruct ((j <? n) && bool_decide (get T m j < 0)%Qc) eqn:E; [|exact H].
    apply andb_true_iff in E as [Ej En]. apply Nat.ltb_lt in Ej.
    apply bool_decide_eq_true_1, Qclt_0_opp in En.
    destruct (bool_decide (max_val a < - get T m j)%Qc); [|exact H].
    right. exists j. done.
  - intros l1 l2 [c1 a] [c2 b] Ha Hb. unfold scan_comb, maximo. cbn [snd] in *.
    by destruct (bool_decide _).
Qed.

Lemma scan_stages_ok m n T t pc :
  Forall (fun a : nat * Compare_Max => max_stage_ok n pc a.2)
    (stages (0%nat, MkMax 0 (Z.of_nat pc)) (scan_leaf m n T) scan_comb t) /\
  (stages (0%nat, MkMax 0 (Z.of_nat pc)) (scan_leaf m n T) scan_comb t <> [] ->
   max_stage_ok n pc (reduce (0%nat, MkMax 0 (Z.of_nat pc)) (scan_leaf m n T) scan_comb t).2).
Proof.
  induction t as [js| |l _ r IH]; cbn [stages].
  - split; [constructor|done].
  - split; [|intros _; by left]. constructor; [by left|constructor].
  - destruct (stages _ _ _ r) as [|x st] eqn:Es; [split; [constructor|done]|].
    destruct IH as [Hall Hr]. specialize (Hr ltac:(done)).
    assert (Hn : max_stage_ok n pc (reduce (0%nat, MkMax 0 (Z.of_nat pc)) (scan_leaf m n T) scan_comb
                                       (RNode l r)).2).
    { cbn [reduce].
      pose proof (scan_reduce_values m n T l (MkMax 0 (Z.of_nat pc)) eq_refl) as Hl.
      set (vl := reduce (0%nat, MkMax 0 (Z.of_nat pc)) (scan_leaf m n T) scan_comb l) in *.
      set (vr := reduce (0%nat, MkMax 0 (Z.of_nat pc)) (scan_leaf m n T) scan_comb r) in *.
      unfold scan_comb, maximo. cbn [snd].
      destruct (bool_decide_reflect (max_val vr.2 < max_val vl.2)%Qc) as [Hlt|_]; [|exact Hr].
      destruct Hl as [Hl0|(j & Hj & Hpos & Hidx)].
      - exfalso. rewrite Hl0 in Hlt.
        destruct Hr as [[Hr0 _]|(j & _ & Hpos & _)]; [rewrite Hr0 in Hlt|]; qc_order.
      - right. exists j. done. }
    split; [|intros _; exact Hn].
    apply Forall_app. split; [exact Hall|]. constructor; [exact Hn|constructor].
Qed.

(** X16: however the threads interleave, the column that line 341 reads for
    a row is the entering column or a column [j < colNumb]: the race with
    the reduction of line 349 changes the factor of the row, but never
    makes the read leave the row. *)
Theorem elim_col_in_row m n sc s pr pc i :
  max_val (st_max s) = 0%Qc -> max_index (st_max s) = Z.of_nat pc ->
  elim_cols m n sc s pr pc i = pc \/ elim_cols m n sc s pr pc i < n.
Proof.
  intros Hv Hidx. unfold elim_cols, shared_max.
  destruct (st_max s) as [v idx]. cbn [max_val max_index] in Hv, Hidx. subst v idx.
  match goal with
  | |- context [nth ?k (stages ?o (scan_leaf m n ?T) scan_comb ?t) ?d] =>
      assert (Hok : max_stage_ok n pc (nth k (stages o (scan_leaf m n T) scan_comb t) d).2);
      [pose proof (proj1 (scan_stages_ok m n T t pc)) as Hall;
       destruct (decide (k < length (stages o (scan_leaf m n T) scan_comb t))) as [Hk|Hk];
       [exact (proj1 (List.Forall_nth _ _) Hall k d Hk)
       |rewrite nth_overflow by lia; by left]|]
  end.
  destruct Hok as [[_ ->]|(j & Hj & _ & ->)]; rewrite Nat2Z.id; [left|right]; done.
Qed.

Lemma elim_col_in_row_witness :
  elim_cols 3 5 example_race (init 3 example_race example_tab) 1 1 0 = 1 \/
  elim_cols 3 5 example_race (init 3 example_race example_tab) 1 1 0 < 5.
Proof. apply elim_col_in_row; decide_concrete. Defined.

(** X13: with at least one constraint, when the run reports an unbounded problem, some iteration has an entering column [pc] with a negative objective entry and no positive entry among the constraint rows. *)
Theorem unbounded_certificate m n sc fuel T0 :
  valid_schedule m n sc -> wf m n T0 -> 0 < m ->
  run m n sc fuel T0 = Unbounded ->
  exists s pc, reach m n sc T0 s /\ pc <= n /\ max_index (st_max s) = Z.of_nat pc /\
    (get (st_tab s) m pc < 0)%Qc /\ forall i, i < m -> (get (st_tab s) i pc <= 0)%Qc.
Proof.
  intros Hsc Hwf Hm Hrun.
  destruct (run_halt m n sc fuel T0) as [H|(s & Hr & Hst)]; [congruence|].
  rewrite Hrun in Hst. exists s.
  pose proof (reach_inv _ _ _ _ _ Hsc Hwf Hr) as (_ & _ & Hmin & Hidx).
  pose proof Hsc as (_ & Hrat & _ & _).
  unfold step in Hst.
  destruct (ratio_test_spec m n (sc_ratio sc (st_ni s)) (st_tab s) (max_index (st_max s))
              (st_min s) (Hrat _) Hmin) as [(Hn & _)|([count mn] & Hs & Hcol & Hc & _)].
  { rewrite Hn in Hst. discriminate. }
  rewrite Hs in Hst. destruct Hcol as [|Hcol]; [lia|].
  destruct Hidx as [Hidx|(j & Hj & Hidx & Hneg)].
  { rewrite Hidx in Hcol. discriminate. }
  exists j. split; [done|]. split; [done|]. split; [done|]. split; [done|].
  destruct (Nat.eqb_spec count m) as [->|Hne].
  - cbn [fst] in Hc. rewrite Hidx, Nat2Z.id in Hc. rewrite <-(length_seq m 0) in Hc at 1.
    intros i Hi. apply Qcnot_lt_le.
    apply (filter_length_full (fun i => ~ (0 < get (st_tab s) i j)%Qc) (seq 0 m)); [done|].
    by apply elem_of_seq_0.
  - destruct (fused_scan m n _ _ _) as [conta mx]. cbv zeta in Hst.
    by destruct (conta =? 0).
Qed.

Lemma unbounded_certificate_witness :
  exists s pc, reach 1 2 (single_thread 1 2) unb_tab s /\ pc <= 2 /\
    max_index (st_max s) = Z.of_nat pc /\
    (get (st_tab s) 1 pc < 0)%Qc /\ forall i, i < 1 -> (get (st_tab s) i pc <= 0)%Qc.
Proof.
  apply (unbounded_certificate 1 2 (single_thread 1 2) 1 unb_tab).
  - apply single_thread_valid.
  - wf_concrete.
  - lia.
  - decide_concrete.
Defined.

(** X14: with no constraint row ([constraintNumb = 0]) the first iteration always ends the run: with one thread it reports an unbounded problem, whatever the objective row; with more threads it reads the matrix out of bounds. *)
Theorem no_constraint_row_unbounded n sc fuel T :
  valid_schedule 0 n sc ->
  run 0 n sc (S fuel) T = if 1 <? sc_threads sc then OutOfBounds else Unbounded.
Proof.
  intros (_ & Hrat & _ & _). rewrite run_first. unfold step, init.
  cbv zeta. cbn [st_tab st_max st_min st_ni max_index].
  destruct (ratio_test_spec 0 n (sc_ratio sc 0) T (max_index (initial_scan 0 (sc_init sc) T)) Compare_Min_default (Hrat 0) eq_refl)
    as [(_ & H & _)|([count mn] & Hs & _ & Hc & _)]; [done|].
  rewrite Hs. cbn [fst] in Hc. assert (count = 0) as -> by (rewrite Hc; reflexivity). cbn [Nat.eqb].
  assert (Hrow : row_in_range 0 (min_index mn) = false).
  { unfold row_in_range. destruct (Z.leb_spec 0 (min_index mn)), (Z.ltb_spec (min_index mn) (Z.of_nat 0)); cbn [andb]; try done; lia. }
  rewrite Hrow. cbn [negb]. rewrite andb_true_r. by destruct (1 <? sc_threads sc).
Qed.

Lemma no_constraint_row_unbounded_witness :
  run 0 2 (single_thread 0 2) 1 [[qz 1; qz 2; qz 0]] = Unbounded.
Proof.
  exact (no_constraint_row_unbounded 2 (single_thread 0 2) 0 [[qz 1; qz 2; qz 0]]
           (single_thread_valid 0 2)).
Defined.

(** ** Instances of the properties on concrete inputs *)

Lemma My_diff_elapsed_witness :
  exists d, My_diff (MkTimespec 5 900000000) (MkTimespec 7 100000000) = Some d /\
    (0 <= tv_nsec d < 1000000000)%Z /\
    total_ns d = (total_ns (MkTimespec 7 100000000) - total_ns (MkTimespec 5 900000000))%Z.
Proof.
  exact (My_diff_elapsed (MkTimespec 5 900000000) (MkTimespec 7 100000000)
           ltac:(cbn; unfold LONG_MAX; lia) ltac:(cbn; unfold LONG_MAX; lia)
           ltac:(cbn; lia) ltac:(cbn; lia)).
Defined.

Lemma get_dimension_one_directory_witness :
  get_dimension ["d";"a";"t";"a";"/";"3";"x";"4";".";"d";"a";"t"]%char = (4, 8)%Z.
Proof.
  apply (get_dimension_one_directory ["d";"a";"t";"a"]%char ["3"]%char ["4"]%char [".";"d";"a";"t"]%char);
    first [discriminate | decide_concrete | reflexivity].
Defined.

Lemma get_dimension_no_directory_witness :
  get_dimension ["3";"x";"4"]%char = (5, 5)%Z.
Proof.
  apply (get_dimension_no_directory ["3"]%char ["4"]%char []);
    first [discriminate | decide_concrete | reflexivity].
Defined.

Lemma get_dimension_two_directories_witness :
  get_dimension ["h";"/";"d";"/";"3";"x";"4"]%char = (1, 4)%Z.
Proof.
  apply (get_dimension_two_directories ["h"]%char "d"%char [] ["3"]%char ["4"]%char);
    first [discriminate | decide_concrete | reflexivity].
Defined.

Lemma from_string_int_number_witness :
  from_string_int 1 [" ";"-";"4";"2";"."]%char = (true, (-42)%Z).
Proof.
  apply (from_string_int_number 1 [" "]%char ["-"]%char true ["4";"2"]%char ["."]%char);
    first [discriminate | decide_concrete | reflexivity | (right; left; split; reflexivity)].
Defined.

Lemma from_string_int_no_number_witness :
  from_string_int 1 [" "]%char = (false, 1%Z) /\ from_string_int 1 ["a"]%char = (false, 0%Z).
Proof.
  split.
  - apply (proj1 (from_string_int_no_number 1 [" "]%char)). decide_concrete.
  - apply (proj2 (from_string_int_no_number 1 ["a"]%char) [] "a"%char []);
      first [reflexivity | constructor | (intros H; discriminate H)].
Defined.

Lemma string_to_vector_words_witness :
  string_to_vector int_num_get ["1";" ";"x";" ";" ";"2";" "]%char = [1%Z; 2%Z].
Proof.
  exact (string_to_vector_words int_num_get [[]; [" "]; [" ";" "]]%char
           [["1"]; ["x"]; ["2"]]%char [" "]%char eq_refl
           ltac:(decide_concrete) ltac:(repeat constructor; discriminate)
           ltac:(repeat constructor; discriminate) ltac:(decide_concrete)).
Defined.

Lemma read_lines_text_witness :
  read_lines int_num_get 3 2 (lines_text [["1";" ";"2"]; ["3"]]%char ++ ["010"; "9"]%char) =
  Some ([[Some 1%Z; Some 2%Z]; [Some 3%Z; None]; [None; None]], 2).
Proof.
  rewrite (read_lines_text int_num_get 3 2 [["1";" ";"2"]; ["3"]]%char ["010"; "9"]%char).
  - reflexivity.
  - repeat constructor; discriminate.
  - right. eexists. reflexivity.
Defined.

Lemma read_lines_last_line_witness :
  read_lines int_num_get 2 2 (lines_text [["1";" ";"2"]]%char ++ ["3"]%char) =
  Some ([[Some 1%Z; Some 2%Z]; [Some 3%Z; None]], 2).
Proof.
  rewrite (read_lines_last_line int_num_get 2 2 [["1";" ";"2"]]%char ["3"]%char).
  - reflexivity.
  - repeat constructor; discriminate.
  - discriminate.
  - repeat constructor.
Defined.

Lemma alocate_matrix_null_rows_witness :
  alocate_matrix 4096 [0; 8192]%Z = Some (4096%Z, [0; 8192]%Z).
Proof. exact (alocate_matrix_null_rows 4096 [0; 8192]%Z ltac:(lia)). Defined.

Lemma main_delete_leaks_last_row_witness :
  main_delete 100 [200; 300]%Z 2 = [200; 100]%Z /\ 300%Z ∉ main_delete 100 [200; 300]%Z 2.
Proof.
  split.
  - exact (proj1 (main_delete_leaks_last_row 100 [200; 300]%Z ltac:(discriminate))).
  - exact (proj2 (main_delete_leaks_last_row 100 [200; 300]%Z ltac:(discriminate)) [200%Z] 300%Z
             eq_refl ltac:(decide_concrete)).
Defined.
